(** * wallDist: the Poisson wall-distance driver and its post-processor

    A shallow embedding of [src/wallDist.cc].  [double] is idealised as a
    real number ([R]); [std::vector] and deal.II's [Vector<double>] are
    lists read and written by index; the deal.II [Assert] macro is active in
    debug builds only, which the embedding carries as a [debug] flag. *)

From Stdlib Require Import Reals Lra Lia ZArith List String.
From stdpp Require Import base list strings gmap pretty.
Import ListNotations.

Local Open Scope nat_scope.

(** ** Outcomes of a call *)

(** Exceptions the program can raise: the two the source names in its
    [Assert]s and the one the CG solver raises when it gives up. *)
Inductive Exception : Type :=
| ExcInternalError
| ExcMessage (msg : string)
| NoConvergence (last_step : nat) (last_residual : R).

(** A call returns normally, raises, indexes a container outside its bounds
    (undefined behaviour for [std::vector], nothing the source handles), or
    takes the square root of a negative number (not a real number: NaN in
    IEEE arithmetic). *)
Inductive outcome (A : Type) : Type :=
| Normal (a : A)
| Thrown (e : Exception)
| OutOfBounds
| DomainError.

Arguments Normal {A} a.
Arguments Thrown {A} e.
Arguments OutOfBounds {A}.
Arguments DomainError {A}.

#[global] Instance outcome_ret : MRet outcome := @Normal.

#[global] Instance outcome_bind : MBind outcome := fun A B k c =>
  match c with
  | Normal a => k a
  | Thrown e => Thrown e
  | OutOfBounds => OutOfBounds
  | DomainError => DomainError
  end.

(** [for (unsigned int i = from; i < from + count; ++i) body], threading the
    variables the body updates. *)
Fixpoint for_loop {S : Type} (from count : nat)
         (body : nat -> S -> outcome S) (s : S) : outcome S :=
  match count with
  | O => Normal s
  | Datatypes.S c => s' ← body from s; for_loop (Datatypes.S from) c body s'
  end.

(** [Assert (cond, exc)]: compiled away in release builds, so that [cond] is
    not even evaluated there. *)
Definition Assert (debug : bool) (cond : outcome bool) (exc : Exception)
  : outcome unit :=
  if debug
  then (b ← cond; if (b : bool) then Normal tt else Thrown exc)
  else Normal tt.

(** ** Containers *)

(** [v[i]] as an rvalue. *)
Definition index {A : Type} (v : list A) (i : nat) : outcome A :=
  match v !! i with
  | Some x => Normal x
  | None => OutOfBounds
  end.

(** [v[i] = x]. *)
Definition store {A : Type} (v : list A) (i : nat) (x : A) : outcome (list A) :=
  if decide (i < length v) then Normal (<[i := x]> v) else OutOfBounds.

(** [static_cast<const unsigned int> (v.size())]: a 64-bit size narrowed to
    32 bits. *)
Definition static_cast_unsigned_int (n : nat) : nat :=
  Z.to_nat (Z.of_nat n mod 4294967296).

(** ** Arithmetic on [double], idealised *)

Definition Rge_bool (x y : R) : bool := if Rge_dec x y then true else false.

(** [std::max (a, b)] is [(a < b) ? b : a]. *)
Definition std_max (a b : R) : R := if Rlt_dec a b then b else a.

Definition std_abs (x : R) : R := Rabs x.

(** [std::sqrt]: defined on non-negative operands only. *)
Definition std_sqrt (x : R) : outcome R :=
  if Rlt_dec x 0 then DomainError else Normal (sqrt x).

(** ** deal.II value types *)

(** [Tensor<1,dim>]: [dim] coordinates. *)
Definition Tensor1 : Type := list R.
(** [Tensor<2,dim>] and [Point<dim>]. *)
Definition Tensor2 : Type := list (list R).
Definition Point : Type := list R.

(** [t[d]] on a [Tensor<1,dim>], [d < dim].  The type fixes the number of
    coordinates; the lists that stand for it are required to have length
    [dim] wherever a statement depends on it. *)
Definition Tensor1_at (t : Tensor1) (d : nat) : R := nth d t 0%R.

(** [a * b] on two [Tensor<1,dim>]: the scalar product. *)
Definition Tensor1_dot (dim : nat) (a b : Tensor1) : R :=
  fold_left (fun acc d => (acc + Tensor1_at a d * Tensor1_at b d)%R)
            (seq 0 dim) 0%R.

(** ** The right-hand side and the boundary values *)

Module RightHandSide.
Definition value (p : Point) (component : nat) : R := 1%R.
End RightHandSide.

Module BoundaryValues.
Definition value (p : Point) (component : nat) : R := 0%R.
End BoundaryValues.

(** ** The post-processor *)

Inductive DataComponentInterpretation : Type :=
| component_is_scalar
| component_is_part_of_vector.

Module Postprocessor.

(** The body of the loop over [d]: it writes [computed_quantities[q][d]]
    and accumulates [l1]. *)
Definition copy_component (g : Tensor1) (q d : nat)
           (st : list (list R) * R) : outcome (list (list R) * R) :=
  let '(computed_quantities, l1) := st in
  row ← index computed_quantities q;
  row' ← store row d (Tensor1_at g d);
  Normal (<[q := row']> computed_quantities,
          (l1 + std_abs (Tensor1_at g d))%R).

(** The body of the loop over [q].  [duh[q]] and [uh[q]] are read once and
    named: both vectors are [const], and [uh[q]] is always in range since
    [q] is below the narrowed size of [uh]. *)
Definition process_point (debug : bool) (dim : nat)
           (uh : list R) (duh : list Tensor1) (q : nat)
           (computed_quantities : list (list R)) : outcome (list (list R)) :=
  g ← index duh q;
  u ← index uh q;
  let l2_square := Tensor1_dot dim g g in
  st ← for_loop 0 dim (copy_component g q) (computed_quantities, 0%R);
  let '(computed_quantities, l1) := st in
  Assert debug (Normal (Rge_bool (l2_square + 2 * u) 0))
         (ExcMessage "Sqrt of negative!");;
  s ← std_sqrt (std_max (l2_square + 2 * u) 0);
  row ← index computed_quantities q;
  row' ← store row dim (s - l1)%R;
  let computed_quantities := <[q := row']> computed_quantities in
  s ← std_sqrt (std_max (l2_square + 2 * u) 0);
  row ← index computed_quantities q;
  row' ← store row (dim + 1) (s + l1)%R;
  Normal (<[q := row']> computed_quantities).

Definition compute_derived_quantities_scalar (debug : bool) (dim : nat)
           (uh : list R) (duh : list Tensor1) (dduh : list Tensor2)
           (normals points : list Point)
           (computed_quantities : list (list R)) : outcome (list (list R)) :=
  let n_quadrature_points := static_cast_unsigned_int (length uh) in
  Assert debug (Normal (length duh =? n_quadrature_points)) ExcInternalError;;
  Assert debug (Normal (length computed_quantities =? n_quadrature_points))
         ExcInternalError;;
  Assert debug (row0 ← index computed_quantities 0;
                Normal (length row0 =? dim + 2))
         ExcInternalError;;
  for_loop 0 n_quadrature_points (process_point debug dim uh duh)
           computed_quantities.

(** [names.push_back (x)] *)
Definition push_back {A : Type} (x : A) (v : list A) : list A := v ++ [x].

Definition get_names (dim : nat) : list string :=
  let names := [] in
  let names := Nat.iter dim (push_back "Diretion"%string) names in
  let names := push_back "sMin"%string names in
  let names := push_back "sMax"%string names in
  names.

Definition get_data_component_interpretation (dim : nat)
  : list DataComponentInterpretation :=
  let interpretation := replicate dim component_is_part_of_vector in
  let interpretation := push_back component_is_scalar interpretation in
  let interpretation := push_back component_is_scalar interpretation in
  interpretation.

End Postprocessor.

(** ** The linear solver of deal.II

    [SolverControl], [PreconditionSSOR] and [SolverCG] belong to the deal.II
    library, which the repository calls and does not contain.  They are
    modelled from the library's documented behaviour: [check] succeeds when
    the residual is at most the tolerance, fails when the step count has
    reached the cap, and asks for another step otherwise; [SolverCG::solve]
    checks the starting residual as step 0, iterates while told to, and
    raises [NoConvergence] unless the last check succeeded (for a cap of at
    least one step, as the program has). *)

Definition Vector : Type := list R.

Record SolverControl : Type := {
  max_steps : nat;
  tolerance : R
}.

Inductive SolverState : Type := iterate | success | failure.

Definition SolverControl_check (control : SolverControl) (step : nat)
           (check_value : R) : SolverState :=
  if Rle_dec check_value (tolerance control) then success
  else if max_steps control <=? step then failure
  else iterate.

Record PreconditionSSOR (SparseMatrix : Type) : Type := {
  ssor_matrix : SparseMatrix;
  ssor_omega : R
}.
Arguments ssor_matrix {SparseMatrix} _.
Arguments ssor_omega {SparseMatrix} _.

(** The loop of [SolverCG::solve] on the residual norms [res 0], [res 1], ...
    of the successive iterates: [it] is the current step and [remaining]
    bounds the steps still allowed. *)
Fixpoint cg_loop (control : SolverControl) (res : nat -> R)
         (remaining it : nat) : SolverState * nat :=
  match SolverControl_check control it (res it) with
  | iterate =>
      match remaining with
      | O => (iterate, it)
      | S r => cg_loop control res r (S it)
      end
  | conv => (conv, it)
  end.

(** ** The world the program acts on *)

(** What [DataOut] has been given and what [build_patches] made of it: for
    each post-processed vector and each patch, the rows the post-processor
    returned. *)
Record DataOut (DoFHandler : Type) : Type := {
  attached_dof_handler : DoFHandler;
  named_vectors : list (Vector * string);
  postprocessed_vectors : list Vector;
  derived_names : list string;
  derived_interpretation : list DataComponentInterpretation;
  patches : list (list (list (list R)))
}.
Arguments attached_dof_handler {DoFHandler} _.
Arguments named_vectors {DoFHandler} _.
Arguments postprocessed_vectors {DoFHandler} _.
Arguments derived_names {DoFHandler} _.
Arguments derived_interpretation {DoFHandler} _.
Arguments patches {DoFHandler} _.

(** The console and the files of the working directory, by name. *)
Record World (DoFHandler : Type) : Type := {
  console : list string;
  files : gmap string (DataOut DoFHandler)
}.
Arguments console {DoFHandler} _.
Arguments files {DoFHandler} _.

(** A member function: it acts on the world and returns, or stops with one
    of the other outcomes. *)
Definition Run (DoFHandler : Type) (A : Type) : Type :=
  World DoFHandler -> outcome A * World DoFHandler.

Definition run_ret {D A : Type} (a : A) : Run D A := fun w => (Normal a, w).

Definition run_bind {D A B : Type} (c : Run D A) (k : A -> Run D B) : Run D B :=
  fun w =>
    match c w with
    | (Normal a, w') => k a w'
    | (Thrown e, w') => (Thrown e, w')
    | (OutOfBounds, w') => (OutOfBounds, w')
    | (DomainError, w') => (DomainError, w')
    end.

(** A computation that does not touch the world. *)
Definition lift {D A : Type} (c : outcome A) : Run D A := fun w => (c, w).

(** [std::cout << ... << std::endl] *)
Definition print {D : Type} (line : string) : Run D unit :=
  fun w => (Normal tt, {| console := console w ++ [line]; files := files w |}).

(** [std::ofstream output (name); data_out.write_vtk (output);] *)
Definition write_file {D : Type} (name : string) (content : DataOut D)
  : Run D unit :=
  fun w => (Normal tt,
            {| console := console w; files := <[name := content]> (files w) |}).

Declare Scope run_scope.
Delimit Scope run_scope with run.
Notation "x ⇐ c ; k" := (run_bind c (fun x => k))
  (at level 20, c at level 100, k at level 200, right associativity,
   format "x  ⇐  c ; '/' k") : run_scope.
Notation "c ;;; k" := (run_bind c (fun _ => k))
  (at level 100, k at level 200, right associativity) : run_scope.

(** ** The driver [Step4<dim>] *)

Section Driver.
Context {Triangulation DoFHandler SparsityPattern SparseMatrix : Type}.

Record Step4 : Type := {
  triangulation : Triangulation;
  dof_handler : DoFHandler;
  sparsity_pattern : SparsityPattern;
  system_matrix : SparseMatrix;
  solution : Vector;
  system_rhs : Vector
}.

(** Whether the program is a debug build, and its space dimension. *)
Variables (debug : bool) (dim : nat).

(** The conjugate-gradient iteration of deal.II on the system
    [(A, x, b, preconditioner)], in the argument order of
    [solver.solve]: the iterate and the residual norm of each step. *)
Variable cg_iterate :
  SparseMatrix -> Vector -> Vector -> PreconditionSSOR SparseMatrix ->
  nat -> Vector.
Variable cg_residual :
  SparseMatrix -> Vector -> Vector -> PreconditionSSOR SparseMatrix ->
  nat -> R.

(** The values and gradients of a finite-element field that [DataOut]
    samples on each patch before it calls the post-processor. *)
Variable patch_samples : DoFHandler -> Vector -> list (list R * list Tensor1).

(** The three stages before the solve consist of deal.II calls only (mesh,
    degrees of freedom, sparsity, assembly, boundary values) and of the
    status lines they print; they are taken as given member functions. *)
Variables make_grid setup_system assemble_system : Step4 -> Run DoFHandler Step4.

(** [solver.solve (A, x, b, preconditioner)]: the final iterate and
    [solver_control.last_step()]. *)
Definition SolverCG_solve (control : SolverControl) (A : SparseMatrix)
           (x b : Vector) (preconditioner : PreconditionSSOR SparseMatrix)
  : outcome (Vector * nat) :=
  let '(conv, it) :=
    cg_loop control (cg_residual A x b preconditioner) (max_steps control) 0 in
  match conv with
  | success => Normal (cg_iterate A x b preconditioner it, it)
  | _ => Thrown (NoConvergence it (cg_residual A x b preconditioner it))
  end.

Local Open Scope run_scope.

Definition solve (s : Step4) : Run DoFHandler Step4 :=
  let solver_control := {| max_steps := 1000; tolerance := 1e-12 |} in
  let preconditioner :=
    {| ssor_matrix := system_matrix s; ssor_omega := 1 |} in
  r ⇐ lift (SolverCG_solve solver_control (system_matrix s) (solution s)
                            (system_rhs s) preconditioner);
  print ("   " +:+ pretty (snd r)
         +:+ " CG iterations needed to obtain convergence.");;;
  run_ret {| triangulation := triangulation s;
             dof_handler := dof_handler s;
             sparsity_pattern := sparsity_pattern s;
             system_matrix := system_matrix s;
             solution := fst r;
             system_rhs := system_rhs s |}.

(** The call [DataOut] makes on one patch: the sampled values and
    gradients, and one zeroed output row per point with one component per
    name. *)
Definition postprocess_patch (n_components : nat)
           (sample : list R * list Tensor1) : outcome (list (list R)) :=
  let '(uh, duh) := sample in
  Postprocessor.compute_derived_quantities_scalar
    debug dim uh duh [] [] []
    (replicate (length uh) (replicate n_components 0%R)).

(** [data_out.build_patches ()] *)
Definition build_patches (data_out : DataOut DoFHandler)
  : outcome (DataOut DoFHandler) :=
  rows ← mapM (fun v =>
                 mapM (postprocess_patch (length (derived_names data_out)))
                      (patch_samples (attached_dof_handler data_out) v))
              (postprocessed_vectors data_out);
  Normal {| attached_dof_handler := attached_dof_handler data_out;
            named_vectors := named_vectors data_out;
            postprocessed_vectors := postprocessed_vectors data_out;
            derived_names := derived_names data_out;
            derived_interpretation := derived_interpretation data_out;
            patches := rows |}.

Definition output_file_name : string :=
  if dim =? 2 then "solution-2d.vtk" else "solution-3d.vtk".

Definition output_results (s : Step4) : Run DoFHandler unit :=
  let data_out :=
    {| attached_dof_handler := dof_handler s;
       named_vectors := [(solution s, "solution"%string)];
       postprocessed_vectors := [solution s];
       derived_names := Postprocessor.get_names dim;
       derived_interpretation :=
         Postprocessor.get_data_component_interpretation dim;
       patches := [] |} in
  data_out ⇐ lift (build_patches data_out);
  write_file output_file_name data_out.

Definition run (s : Step4) : Run DoFHandler unit :=
  print ("Solving problem in " +:+ pretty dim +:+ " space dimensions.");;;
  s ⇐ make_grid s;
  s ⇐ setup_system s;
  s ⇐ assemble_system s;
  s ⇐ solve s;
  output_results s.

End Driver.

(** [main]: the two-dimensional problem is run and 0 returned; an exception
    that leaves [run] leaves [main] as well, since neither has a handler, and
    the program then ends in [std::terminate].  The call
    [deallog.depth_console (0)] silences deal.II's own log and touches neither
    the status lines nor the files. *)
Definition main {Triangulation DoFHandler SparsityPattern SparseMatrix : Type}
           (debug : bool) cg_iterate cg_residual patch_samples
           make_grid setup_system assemble_system
           (laplace_problem_2d :
              @Step4 Triangulation DoFHandler SparsityPattern SparseMatrix)
  : Run DoFHandler Z :=
  (run debug 2 cg_iterate cg_residual patch_samples
       make_grid setup_system assemble_system laplace_problem_2d;;;
   run_ret 0%Z)%run.

(** ** The quantities the specification names *)

(** |g|^2, the sum over k of |g[k]|, and the two distance estimates. *)
Definition norm2_square (g : Tensor1) : R :=
  fold_right (fun x acc => (x * x + acc)%R) 0%R g.

Definition norm1 (g : Tensor1) : R :=
  fold_right (fun x acc => (Rabs x + acc)%R) 0%R g.

Definition radicand (u : R) (g : Tensor1) : R := (norm2_square g + 2 * u)%R.

Definition sMin (u : R) (g : Tensor1) : R :=
  (sqrt (Rmax (radicand u g) 0) - norm1 g)%R.

Definition sMax (u : R) (g : Tensor1) : R :=
  (sqrt (Rmax (radicand u g) 0) + norm1 g)%R.

(** The (dim+2)-vector of one point. *)
Definition derived_quantities (u : R) (g : Tensor1) : list R :=
  g ++ [sMin u g; sMax u g].

(** What the caller of [compute_derived_quantities_scalar] owes it: the
    three conditions the function asserts, the size of every output row (the
    assertion looks at the first only) and the [dim] coordinates of each
    gradient. *)
Record well_shaped (dim : nat) (uh : list R) (duh : list Tensor1)
       (computed_quantities : list (list R)) : Prop := {
  ws_duh : length duh = static_cast_unsigned_int (length uh);
  ws_rows : length computed_quantities = static_cast_unsigned_int (length uh);
  ws_row : Forall (fun row => length row = dim + 2) computed_quantities;
  ws_tensor : Forall (fun g : Tensor1 => length g = dim) duh
}.

(** No point has a negative radicand. *)
Definition radicands_nonneg (uh : list R) (duh : list Tensor1) : Prop :=
  forall q u g, uh !! q = Some u -> duh !! q = Some g -> (0 <= radicand u g)%R.

(** ** Auxiliary definitions of the statements *)

(** The list [l] with [f d] written at every index [d] of [i .. i+c). *)
Definition fill_range {A : Type} (f : nat -> A) (i c : nat) (l : list A)
  : list A :=
  fold_left (fun l d => <[d := f d]> l) (seq i c) l.

(** Row [j] of the output, from the inputs of point [j]. *)
Definition point_row (uh : list R) (duh : list Tensor1) (j : nat) : list R :=
  derived_quantities (nth j uh 0%R) (nth j duh []).

(** A patch as [DataOut] hands it over: as many gradients as values, of
    [dim] coordinates each, fewer than 2^32 points, and in a debug build at
    least one point and no negative radicand. *)
Record patch_ok (debug : bool) (dim : nat) (sample : list R * list Tensor1)
  : Prop := {
  patch_sizes : length (snd sample) = length (fst sample);
  patch_small : (Z.of_nat (length (fst sample)) < 4294967296)%Z;
  patch_tensors : Forall (fun g : Tensor1 => length g = dim) (snd sample);
  patch_debug : debug = true ->
                fst sample <> [] /\ radicands_nonneg (fst sample) (snd sample)
}.

Section DriverNotions.
Context {Triangulation DoFHandler SparsityPattern SparseMatrix : Type}.

(** The residual norms and the iterates of CG on the system of [s] under
    SSOR with relaxation 1. *)
Definition residuals
           (cg_residual :
              SparseMatrix -> Vector -> Vector ->
              PreconditionSSOR SparseMatrix -> nat -> R)
           (s : @Step4 Triangulation DoFHandler SparsityPattern SparseMatrix)
  : nat -> R :=
  cg_residual (system_matrix s) (solution s) (system_rhs s)
              {| ssor_matrix := system_matrix s; ssor_omega := 1 |}.

Definition iterates
           (cg_iterate :
              SparseMatrix -> Vector -> Vector ->
              PreconditionSSOR SparseMatrix -> nat -> Vector)
           (s : @Step4 Triangulation DoFHandler SparsityPattern SparseMatrix)
  : nat -> Vector :=
  cg_iterate (system_matrix s) (solution s) (system_rhs s)
             {| ssor_matrix := system_matrix s; ssor_omega := 1 |}.

(** The world once [run] has printed its first line. *)
Definition started (dim : nat) (w : World DoFHandler) : World DoFHandler :=
  {| console := console w ++
                ["Solving problem in " +:+ pretty dim +:+ " space dimensions."];
     files := files w |}.

(** The derived rows of every patch of a field. *)
Definition derived_patches
           (patch_samples : DoFHandler -> Vector -> list (list R * list Tensor1))
           (dofs : DoFHandler) (v : Vector) : list (list (list R)) :=
  (fun sample => zip_with derived_quantities (fst sample) (snd sample))
    <$> patch_samples dofs v.

(** The field a data set carries under the name "solution". *)
Definition solution_written (data : DataOut DoFHandler) : Vector :=
  match named_vectors data with
  | (v, _) :: _ => v
  | [] => []
  end.

(** What the output stage writes for the object [s]. *)
Definition vtk_data (dim : nat)
           (patch_samples : DoFHandler -> Vector -> list (list R * list Tensor1))
           (s : @Step4 Triangulation DoFHandler SparsityPattern SparseMatrix)
  : DataOut DoFHandler :=
  {| attached_dof_handler := dof_handler s;
     named_vectors := [(solution s, "solution"%string)];
     postprocessed_vectors := [solution s];
     derived_names := Postprocessor.get_names dim;
     derived_interpretation :=
       Postprocessor.get_data_component_interpretation dim;
     patches := [derived_patches patch_samples (dof_handler s) (solution s)] |}.
End DriverNotions.

(** The opposite of a gradient. *)
Definition opposite (g : Tensor1) : Tensor1 := Ropp <$> (g : list R).

(** ** Sample inputs *)

(** One point in two dimensions: value 0, gradient (3, 4), a zeroed row. *)
Definition sample_uh : list R := [0%R].
Definition sample_duh : list Tensor1 := [[3%R; 4%R]].
Definition sample_rows : list (list R) := [[0%R; 0%R; 0%R; 0%R]].

(** One point in one dimension whose radicand is negative: 1 + 2 * (-1). *)
Definition negative_uh : list R := [(-1)%R].
Definition negative_duh : list Tensor1 := [[1%R]].
Definition negative_rows : list (list R) := [[0%R; 0%R; 0%R]].

(** ** Sample problems *)

(** A problem over trivial deal.II objects, whose three first stages do
    nothing, in a world without files. *)
Definition blank_problem : @Step4 unit unit unit unit :=
  {| triangulation := tt; dof_handler := tt; sparsity_pattern := tt;
     system_matrix := tt; solution := []; system_rhs := [] |}.

Definition empty_world : World unit := {| console := []; files := ∅ |}.

(** A CG iteration that never gets anywhere: residual 1 at every step. *)
Definition stalled_iterate
  : unit -> Vector -> Vector -> PreconditionSSOR unit -> nat -> Vector :=
  fun _ x _ _ _ => x.
Definition stalled_residual
  : unit -> Vector -> Vector -> PreconditionSSOR unit -> nat -> R :=
  fun _ _ _ _ _ => 1%R.

Definition no_patches : unit -> Vector -> list (list R * list Tensor1) :=
  fun _ _ => [].
Definition one_patch : unit -> Vector -> list (list R * list Tensor1) :=
  fun _ _ => [(sample_uh, sample_duh)].

(** ** Further notions for the driver *)

(** A patch of the right sizes, whatever its radicands: as many gradients as
    values, of [dim] coordinates each, at least one point and fewer than
    2^32. *)
Record patch_shaped (dim : nat) (sample : list R * list Tensor1) : Prop := {
  shaped_sizes : length (snd sample) = length (fst sample);
  shaped_small : (Z.of_nat (length (fst sample)) < 4294967296)%Z;
  shaped_tensors : Forall (fun g : Tensor1 => length g = dim) (snd sample);
  shaped_points : fst sample <> []
}.

(** Some point of the patch has a negative radicand. *)
Definition has_negative_radicand (sample : list R * list Tensor1) : Prop :=
  exists q u g,
    fst sample !! q = Some u /\ snd sample !! q = Some g /\
    (radicand u g < 0)%R.

(** A CG iteration that has converged before its first step: residual 0
    throughout. *)
Definition settled_residual
  : unit -> Vector -> Vector -> PreconditionSSOR unit -> nat -> R :=
  fun _ _ _ _ _ => 0%R.

(** The world after a converged solve that needed no step. *)
Definition settled_world : World unit :=
  {| console := ["   0 CG iterations needed to obtain convergence."%string];
     files := ∅ |}.

(** Two one-dimensional patches of one point each; the second has a
    negative radicand. *)
Definition negative_patch : unit -> Vector -> list (list R * list Tensor1) :=
  fun _ _ => [([0%R], [[1%R]]); (negative_uh, negative_duh)].

(** ** The stages before the solve

    [make_grid], [setup_system] and [assemble_system] are written in terms
    of the deal.II operations they call.  The library is not part of the
    repository: its operations are the fields of [Library], taken as
    given and as returning. *)

(** What [fe_values] offers on the cell it was last [reinit]ialised on. *)
Record FEValues : Type := {
  shape_value : nat -> nat -> R;
  shape_grad : nat -> nat -> Tensor1;
  JxW : nat -> R;
  quadrature_point : nat -> Point
}.

Record Library (Triangulation DoFHandler SparsityPattern SparseMatrix Cell : Type)
  : Type := {
  (* GridGenerator::hyper_cube (tria, left, right); tria.refine_global (n) *)
  hyper_cube : Triangulation -> R -> R -> Triangulation;
  refine_global : Triangulation -> nat -> Triangulation;
  n_active_cells : Triangulation -> nat;
  n_cells : Triangulation -> nat;
  (* dof_handler.distribute_dofs (fe), on the triangulation it refers to *)
  distribute_dofs : DoFHandler -> Triangulation -> nat -> DoFHandler;
  n_dofs : DoFHandler -> nat;
  (* DoFTools::make_sparsity_pattern into a pattern of n_dofs rows, copied *)
  make_sparsity_pattern : DoFHandler -> SparsityPattern;
  matrix_reinit : SparsityPattern -> SparseMatrix;
  (* fe.dofs_per_cell and quadrature_formula.size() *)
  fe_dofs_per_cell : nat -> nat;
  quadrature_size : nat -> nat;
  (* the update flags, and fe_values.reinit (cell) for an element degree, a
     quadrature order and flags *)
  update_values : Z;
  update_gradients : Z;
  update_quadrature_points : Z;
  update_JxW_values : Z;
  fe_values_reinit : nat -> nat -> Z -> Cell -> FEValues;
  (* the active cells from begin_active() to end(), and their indices *)
  active_cells : DoFHandler -> list Cell;
  get_dof_indices : Cell -> list nat;
  (* system_matrix.add (i, j, value) *)
  matrix_add : SparseMatrix -> nat -> nat -> R -> SparseMatrix;
  interpolate_boundary_values :
    DoFHandler -> nat -> (Point -> nat -> R) -> gmap nat R;
  apply_boundary_values :
    gmap nat R -> SparseMatrix -> Vector -> Vector ->
    SparseMatrix * Vector * Vector
}.
Arguments hyper_cube {_ _ _ _ _} _.
Arguments refine_global {_ _ _ _ _} _.
Arguments n_active_cells {_ _ _ _ _} _.
Arguments n_cells {_ _ _ _ _} _.
Arguments distribute_dofs {_ _ _ _ _} _.
Arguments n_dofs {_ _ _ _ _} _.
Arguments make_sparsity_pattern {_ _ _ _ _} _.
Arguments matrix_reinit {_ _ _ _ _} _.
Arguments fe_dofs_per_cell {_ _ _ _ _} _.
Arguments quadrature_size {_ _ _ _ _} _.
Arguments update_values {_ _ _ _ _} _.
Arguments update_gradients {_ _ _ _ _} _.
Arguments update_quadrature_points {_ _ _ _ _} _.
Arguments update_JxW_values {_ _ _ _ _} _.
Arguments fe_values_reinit {_ _ _ _ _} _.
Arguments active_cells {_ _ _ _ _} _.
Arguments get_dof_indices {_ _ _ _ _} _.
Arguments matrix_add {_ _ _ _ _} _.
Arguments interpolate_boundary_values {_ _ _ _ _} _.
Arguments apply_boundary_values {_ _ _ _ _} _.

(** [for (; cell != endc; ++cell) body] over the cells in order. *)
Fixpoint for_each {A St : Type} (l : list A) (body : A -> St -> outcome St)
         (s : St) : outcome St :=
  match l with
  | [] => Normal s
  | x :: l' => s' ← body x s; for_each l' body s'
  end.

(** [v(i) += x] on a vector and [m(i,j) += x] on a full matrix. *)
Definition add_to_coordinate (v : list R) (i : nat) (x : R) : outcome (list R) :=
  old ← index v i;
  store v i (old + x)%R.

Definition add_to_entry (m : list (list R)) (i j : nat) (x : R)
  : outcome (list (list R)) :=
  row ← index m i;
  row' ← add_to_coordinate row j x;
  store m i row'.

Module Stages.
Section Stages.
Context {Triangulation DoFHandler SparsityPattern SparseMatrix Cell : Type}.
Variable lib : Library Triangulation DoFHandler SparsityPattern SparseMatrix Cell.
Variable dim : nat.

Local Open Scope run_scope.

(** The member [fe], initialised as [fe (2)]. *)
Definition fe : nat := 2.

Definition make_grid
           (s : @Step4 Triangulation DoFHandler SparsityPattern SparseMatrix)
  : Run DoFHandler (@Step4 Triangulation DoFHandler SparsityPattern SparseMatrix) :=
  let triangulation := hyper_cube lib (triangulation s) (-1) 1 in
  let triangulation := refine_global lib triangulation 4 in
  print ("   Number of active cells: "
         +:+ pretty (n_active_cells lib triangulation));;;
  print ("   Total number of cells: "
         +:+ pretty (n_cells lib triangulation));;;
  run_ret {| triangulation := triangulation;
             dof_handler := dof_handler s;
             sparsity_pattern := sparsity_pattern s;
             system_matrix := system_matrix s;
             solution := solution s;
             system_rhs := system_rhs s |}.

Definition setup_system
           (s : @Step4 Triangulation DoFHandler SparsityPattern SparseMatrix)
  : Run DoFHandler (@Step4 Triangulation DoFHandler SparsityPattern SparseMatrix) :=
  let dof_handler := distribute_dofs lib (dof_handler s) (triangulation s) fe in
  print ("   Number of degrees of freedom: "
         +:+ pretty (n_dofs lib dof_handler));;;
  let sparsity_pattern := make_sparsity_pattern lib dof_handler in
  let system_matrix := matrix_reinit lib sparsity_pattern in
  run_ret {| triangulation := triangulation s;
             dof_handler := dof_handler;
             sparsity_pattern := sparsity_pattern;
             system_matrix := system_matrix;
             solution := replicate (n_dofs lib dof_handler) 0%R;
             system_rhs := replicate (n_dofs lib dof_handler) 0%R |}.

(** The loops over [q_index], [i] and [j] on one cell, from a zeroed
    [cell_matrix] and [cell_rhs]. *)
Definition cell_contributions (dofs_per_cell n_q_points : nat)
           (fe_values : FEValues) : outcome (list (list R) * list R) :=
  let cell_matrix := replicate dofs_per_cell (replicate dofs_per_cell 0%R) in
  let cell_rhs := replicate dofs_per_cell 0%R in
  for_loop 0 n_q_points
    (fun q_index =>
       for_loop 0 dofs_per_cell
         (fun i '(cell_matrix, cell_rhs) =>
            cell_matrix ←
              for_loop 0 dofs_per_cell
                (fun j cell_matrix =>
                   add_to_entry cell_matrix i j
                     (Tensor1_dot dim (shape_grad fe_values i q_index)
                                      (shape_grad fe_values j q_index)
                      * JxW fe_values q_index)%R)
                cell_matrix;
            cell_rhs ←
              add_to_coordinate cell_rhs i
                (shape_value fe_values i q_index
                 * RightHandSide.value (quadrature_point fe_values q_index) 0
                 * JxW fe_values q_index)%R;
            Normal (cell_matrix, cell_rhs)))
    (cell_matrix, cell_rhs).

(** The loops that add the cell's contributions into the global system. *)
Definition scatter (dofs_per_cell : nat) (local_dof_indices : list nat)
           (cell_matrix : list (list R)) (cell_rhs : list R)
           (system : SparseMatrix * Vector) : outcome (SparseMatrix * Vector) :=
  for_loop 0 dofs_per_cell
    (fun i '(system_matrix, system_rhs) =>
       system_matrix ←
         for_loop 0 dofs_per_cell
           (fun j system_matrix =>
              gi ← index local_dof_indices i;
              gj ← index local_dof_indices j;
              row ← index cell_matrix i;
              value ← index row j;
              Normal (matrix_add lib system_matrix gi gj value))
           system_matrix;
       gi ← index local_dof_indices i;
       value ← index cell_rhs i;
       system_rhs ← add_to_coordinate system_rhs gi value;
       Normal (system_matrix, system_rhs))
    system.

(** The loop over the active cells. *)
Definition assemble_cells (cells : list Cell) (system : SparseMatrix * Vector)
  : outcome (SparseMatrix * Vector) :=
  let quadrature_formula := 2 in
  let flags :=
    Z.lor (Z.lor (Z.lor (update_values lib) (update_gradients lib))
                 (update_quadrature_points lib))
          (update_JxW_values lib) in
  let dofs_per_cell := fe_dofs_per_cell lib fe in
  let n_q_points := quadrature_size lib quadrature_formula in
  for_each cells
    (fun cell system =>
       let fe_values := fe_values_reinit lib fe quadrature_formula flags cell in
       local ← cell_contributions dofs_per_cell n_q_points fe_values;
       scatter dofs_per_cell (get_dof_indices lib cell)
               (fst local) (snd local) system)
    system.

Definition assemble_system
           (s : @Step4 Triangulation DoFHandler SparsityPattern SparseMatrix)
  : Run DoFHandler (@Step4 Triangulation DoFHandler SparsityPattern SparseMatrix) :=
  system ⇐ lift (assemble_cells (active_cells lib (dof_handler s))
                               (system_matrix s, system_rhs s));
  let boundary_values :=
    interpolate_boundary_values lib (dof_handler s) 0 BoundaryValues.value in
  let '(system_matrix, solution, system_rhs) :=
    apply_boundary_values lib boundary_values (fst system) (solution s)
                          (snd system) in
  run_ret {| triangulation := triangulation s;
             dof_handler := dof_handler s;
             sparsity_pattern := sparsity_pattern s;
             system_matrix := system_matrix;
             solution := solution;
             system_rhs := system_rhs |}.

End Stages.
End Stages.

(** [Postprocessor<dim>::get_needed_update_flags] *)
Definition get_needed_update_flags
           {Triangulation DoFHandler SparsityPattern SparseMatrix Cell : Type}
           (lib : Library Triangulation DoFHandler SparsityPattern SparseMatrix Cell)
  : Z :=
  Z.lor (update_values lib) (update_gradients lib).

(** The sum of [f 0], ..., [f (n - 1)], and the sum of a vector. *)
Definition sum_upto (n : nat) (f : nat -> R) : R :=
  fold_right (fun q acc => (f q + acc)%R) 0%R (seq 0 n).

Definition total (v : list R) : R := fold_right Rplus 0%R v.

(** Entry [(i, j)] of a full matrix, 0 outside it. *)
Definition entry (m : list (list R)) (i j : nat) : R := nth j (nth i m []) 0%R.

(** ** Further notions for the assembly *)

Section AssemblyNotions.
Context {Triangulation DoFHandler SparsityPattern SparseMatrix Cell : Type}.
Variable lib : Library Triangulation DoFHandler SparsityPattern SparseMatrix Cell.

(** What [fe_values] holds on a cell during the assembly. *)
Definition cell_fe_values (cell : Cell) : FEValues :=
  fe_values_reinit lib Stages.fe 2
    (Z.lor (Z.lor (Z.lor (update_values lib) (update_gradients lib))
                  (update_quadrature_points lib))
           (update_JxW_values lib))
    cell.

(** The sum over the local degrees of freedom and the quadrature points of a
    cell of shape_i JxW. *)
Definition cell_load (cell : Cell) : R :=
  sum_upto (fe_dofs_per_cell lib Stages.fe)
    (fun i =>
       sum_upto (quadrature_size lib 2)
         (fun q => (shape_value (cell_fe_values cell) i q
                    * JxW (cell_fe_values cell) q)%R)).

(** The cell has an index for each local degree of freedom, and each is an
    index of a vector of [n_dofs] entries. *)
Definition indices_in_range (n_dofs : nat) (cell : Cell) : Prop :=
  fe_dofs_per_cell lib Stages.fe <= length (get_dof_indices lib cell)
  /\ forall i, i < fe_dofs_per_cell lib Stages.fe ->
               nth i (get_dof_indices lib cell) 0 < n_dofs.
End AssemblyNotions.

(** A library whose elements have two local degrees of freedom and one
    quadrature point, on a mesh without active cells. *)
Definition toy_library : Library unit unit unit unit nat :=
  {| hyper_cube := fun t _ _ => t;
     refine_global := fun t _ => t;
     n_active_cells := fun _ => 1;
     n_cells := fun _ => 1;
     distribute_dofs := fun d _ _ => d;
     n_dofs := fun _ => 2;
     make_sparsity_pattern := fun _ => tt;
     matrix_reinit := fun _ => tt;
     fe_dofs_per_cell := fun _ => 2;
     quadrature_size := fun _ => 1;
     update_values := 1;
     update_gradients := 2;
     update_quadrature_points := 16;
     update_JxW_values := 32;
     fe_values_reinit := fun _ _ _ _ =>
       {| shape_value := fun _ _ => 1%R;
          shape_grad := fun _ _ => [1%R];
          JxW := fun _ => 2%R;
          quadrature_point := fun _ => [0%R] |};
     active_cells := fun _ => [];
     get_dof_indices := fun _ => [0; 1];
     matrix_add := fun m _ _ _ => m;
     interpolate_boundary_values := fun _ _ _ => ∅;
     apply_boundary_values := fun _ m x b => (m, x, b) |}.

(** The blank problem once [setup_system] has sized its vectors for the two
    degrees of freedom of the toy library. *)
Definition toy_set_up : @Step4 unit unit unit unit :=
  {| triangulation := tt; dof_handler := tt; sparsity_pattern := tt;
     system_matrix := tt; solution := [0%R; 0%R]; system_rhs := [0%R; 0%R] |}.

(** * Properties *)

(** ** Arithmetic *)

Lemma static_cast_unsigned_int_le (n : nat) : static_cast_unsigned_int n <= n.
Proof.
  unfold static_cast_unsigned_int.
  pose proof (Z.mod_le (Z.of_nat n) 4294967296). lia.
Qed.

Lemma static_cast_unsigned_int_small (n : nat) :
  (Z.of_nat n < 4294967296)%Z -> static_cast_unsigned_int n = n.
Proof.
  intros H. unfold static_cast_unsigned_int.
  rewrite Z.mod_small by lia. lia.
Qed.

Lemma std_max_Rmax (a b : R) : std_max a b = Rmax a b.
Proof.
  unfold std_max, Rmax.
  destruct (Rlt_dec a b), (Rle_dec a b); try reflexivity; lra.
Qed.

Lemma std_max_0_nonneg (x : R) : (0 <= std_max x 0)%R.
Proof. rewrite std_max_Rmax. apply Rmax_r. Qed.

Lemma std_sqrt_clamped (x : R) :
  std_sqrt (std_max x 0) = Normal (sqrt (Rmax x 0)).
Proof.
  unfold std_sqrt. pose proof (std_max_0_nonneg x).
  destruct (Rlt_dec (std_max x 0) 0); [lra |].
  now rewrite std_max_Rmax.
Qed.

Lemma Rge_bool_true (x y : R) : (y <= x)%R -> Rge_bool x y = true.
Proof. intros H. unfold Rge_bool. destruct (Rge_dec x y); [reflexivity | lra]. Qed.

Lemma Rge_bool_false (x y : R) : (x < y)%R -> Rge_bool x y = false.
Proof. intros H. unfold Rge_bool. destruct (Rge_dec x y); [lra | reflexivity]. Qed.

Lemma norm1_nonneg (g : Tensor1) : (0 <= norm1 g)%R.
Proof.
  induction g as [| x g IH]; simpl; [lra |].
  pose proof (Rabs_pos x). lra.
Qed.

(** ** Sums written as index loops *)

Lemma fold_left_seq_shift {A : Type} (f : A -> nat -> A) (i c : nat) (a : A) :
  fold_left f (seq (S i) c) a = fold_left (fun acc d => f acc (S d)) (seq i c) a.
Proof.
  revert i a. induction c as [| c IH]; intros i a; simpl; [reflexivity |].
  apply IH.
Qed.

Lemma index_sum_fold_right (h : R -> R) (g : list R) (a : R) :
  fold_left (fun acc d => (acc + h (nth d g 0%R))%R) (seq 0 (length g)) a
  = (a + fold_right (fun x acc => (h x + acc)%R) 0%R g)%R.
Proof.
  revert a. induction g as [| x g IH]; intros a; simpl; [lra |].
  rewrite fold_left_seq_shift. simpl. rewrite IH. lra.
Qed.

Lemma Tensor1_dot_norm2_square (g : Tensor1) :
  Tensor1_dot (length g) g g = norm2_square g.
Proof.
  unfold Tensor1_dot, norm2_square, Tensor1_at.
  rewrite (index_sum_fold_right (fun x => (x * x)%R)). lra.
Qed.

(** ** Writing a run of indices *)

Section FillRange.
Context {A : Type} (f : nat -> A).

Lemma fill_range_length i c l : length (fill_range f i c l) = length l.
Proof.
  unfold fill_range. revert i l.
  induction c as [| c IH]; intros i l; simpl; [reflexivity |].
  rewrite IH. apply length_insert.
Qed.

Lemma fill_range_lookup_in i c l j :
  i <= j < i + c -> j < length l -> fill_range f i c l !! j = Some (f j).
Proof.
  unfold fill_range. revert i l.
  induction c as [| c IH]; intros i l Hj Hl; simpl; [lia |].
  destruct (decide (j = i)) as [-> | Hne].
  - clear IH Hj. revert l Hl. generalize (S i) at 1. intros k. revert k.
    induction c as [| c IH]; intros k l Hl; simpl.
    + now apply list_lookup_insert_eq.
    + destruct (decide (k = i)) as [-> | Hk].
      * rewrite list_insert_insert_eq. apply IH. exact Hl.
      * rewrite list_insert_insert_ne by congruence.
        apply IH. now rewrite length_insert.
  - apply IH; [lia | now rewrite length_insert].
Qed.

Lemma fill_range_lookup_out i c l j :
  ~ (i <= j < i + c) -> fill_range f i c l !! j = l !! j.
Proof.
  unfold fill_range. revert i l.
  induction c as [| c IH]; intros i l Hj; simpl; [reflexivity |].
  rewrite IH by lia. apply list_lookup_insert_ne. lia.
Qed.
End FillRange.

(** ** The loops of the post-processor *)

Lemma index_Some {A : Type} (v : list A) (i : nat) (x : A) :
  v !! i = Some x -> index v i = Normal x.
Proof. intros H. unfold index. now rewrite H. Qed.

Lemma store_in_range {A : Type} (v : list A) (i : nat) (x : A) :
  i < length v -> store v i x = Normal (<[i := x]> v).
Proof. intros H. unfold store. destruct (decide (i < length v)); [reflexivity | lia]. Qed.

Lemma bind_Normal {A B : Type} (a : A) (k : A -> outcome B) :
  (Normal a ≫= k) = k a.
Proof. reflexivity. Qed.

(** The loop over [d] rewrites the components [i .. i+c) of row [q] and adds
    their absolute values to [l1]. *)
Lemma copy_loop (g : Tensor1) (q : nat) (c : nat) :
  forall (i : nat) (cq : list (list R)) (row : list R) (l1 : R),
    cq !! q = Some row -> i + c <= length row ->
    for_loop i c (Postprocessor.copy_component g q) (cq, l1)
    = Normal (<[q := fill_range (Tensor1_at g) i c row]> cq,
              fold_left (fun acc d => (acc + Rabs (Tensor1_at g d))%R)
                        (seq i c) l1).
Proof.
  induction c as [| c IH]; intros i cq row l1 Hq Hlen; simpl.
  - unfold fill_range. simpl. now rewrite list_insert_id.
  - unfold Postprocessor.copy_component at 1.
    rewrite (index_Some _ _ _ Hq), bind_Normal.
    rewrite store_in_range by lia. rewrite bind_Normal, bind_Normal.
    pose proof (lookup_lt_Some _ _ _ Hq) as Hlt.
    rewrite (IH (S i) _ (<[i := Tensor1_at g i]> row)).
    + rewrite list_insert_insert_eq. reflexivity.
    + now apply list_lookup_insert_eq.
    + rewrite length_insert. lia.
Qed.

Lemma fill_range_whole (g : Tensor1) (row : list R) :
  length g <= length row ->
  fill_range (Tensor1_at g) 0 (length g) row = g ++ drop (length g) row.
Proof.
  intros Hlen. apply list_eq. intros j.
  destruct (decide (j < length g)) as [Hj | Hj].
  - rewrite fill_range_lookup_in by lia.
    rewrite lookup_app_l by lia. unfold Tensor1_at.
    destruct (lookup_lt_is_Some_2 g j Hj) as [x Hx].
    rewrite Hx. f_equal. now apply nth_lookup_Some.
  - rewrite fill_range_lookup_out by lia.
    rewrite lookup_app_r by lia. rewrite lookup_drop. f_equal. lia.
Qed.

Lemma insert_tail_two (g : list R) (a b x y : R) :
  <[length g + 1 := y]> (<[length g := x]> (g ++ [a; b])) = g ++ [x; y].
Proof.
  rewrite (insert_app_r_alt g [a; b] (length g)) by lia.
  rewrite insert_app_r_alt by lia.
  replace (length g - length g) with 0 by lia.
  replace (length g + 1 - length g) with 1 by lia.
  reflexivity.
Qed.

(** One pass of the loop over [q], on a row of the right size: it raises in
    a debug build when the radicand is negative, and otherwise replaces row
    [q] by the derived quantities of the point. *)
Lemma process_point_spec (debug : bool) (dim : nat) (uh : list R)
      (duh : list Tensor1) (q : nat) (cq : list (list R))
      (u : R) (g : Tensor1) (row : list R) :
  uh !! q = Some u -> duh !! q = Some g -> cq !! q = Some row ->
  length g = dim -> length row = dim + 2 ->
  Postprocessor.process_point debug dim uh duh q cq
  = if debug && negb (Rge_bool (radicand u g) 0)
    then Thrown (ExcMessage "Sqrt of negative!")
    else Normal (<[q := derived_quantities u g]> cq).
Proof.
  intros Hu Hg Hrow Hlg Hlr. subst dim.
  pose proof (lookup_lt_Some _ _ _ Hrow) as Hq.
  unfold Postprocessor.process_point.
  rewrite (index_Some _ _ _ Hg), bind_Normal.
  rewrite (index_Some _ _ _ Hu), bind_Normal.
  rewrite (copy_loop g q (length g) 0 cq row) by (trivial; lia).
  rewrite bind_Normal.
  rewrite fill_range_whole by lia.
  rewrite Tensor1_dot_norm2_square.
  unfold Tensor1_at.
  rewrite (index_sum_fold_right Rabs g 0%R), Rplus_0_l.
  fold (norm1 g). fold (radicand u g).
  assert (Htail : exists a b, drop (length g) row = [a; b]).
  { assert (Hl : length (drop (length g) row) = 2) by (rewrite length_drop; lia).
    destruct (drop (length g) row) as [| a [| b [| c t]]]; simpl in Hl; try lia.
    now exists a, b. }
  destruct Htail as (a & b & ->).
  assert (Hthen :
    (s ← std_sqrt (std_max (radicand u g) 0);
     row0 ← index (<[q := g ++ [a; b]]> cq) q;
     row' ← store row0 (length g) (s - norm1 g)%R;
     let computed_quantities := <[q := row']> (<[q := g ++ [a; b]]> cq) in
     s0 ← std_sqrt (std_max (radicand u g) 0);
     row1 ← index computed_quantities q;
     row'0 ← store row1 (length g + 1) (s0 + norm1 g)%R;
     Normal (<[q := row'0]> computed_quantities))
    = Normal (<[q := derived_quantities u g]> cq)).
  { rewrite std_sqrt_clamped, bind_Normal.
    rewrite (index_Some _ _ (g ++ [a; b])) by now apply list_lookup_insert_eq.
    rewrite bind_Normal.
    rewrite store_in_range by (rewrite length_app; simpl; lia).
    rewrite bind_Normal. cbv zeta.
    rewrite bind_Normal.
    rewrite list_insert_insert_eq.
    rewrite (index_Some _ _ (<[length g := (sqrt (Rmax (radicand u g) 0) - norm1 g)%R]>
                               (g ++ [a; b])))
      by now apply list_lookup_insert_eq.
    rewrite bind_Normal.
    rewrite store_in_range by (rewrite length_insert, length_app; simpl; lia).
    rewrite bind_Normal, list_insert_insert_eq, insert_tail_two.
    reflexivity. }
  unfold Assert.
  destruct debug; simpl andb; cbv iota.
  - rewrite bind_Normal.
    destruct (Rge_bool (radicand u g) 0); simpl negb; cbv iota.
    + exact Hthen.
    + reflexivity.
  - exact Hthen.
Qed.

Lemma derived_quantities_length (u : R) (g : Tensor1) :
  length (derived_quantities u g) = length g + 2.
Proof. unfold derived_quantities. rewrite length_app. reflexivity. Qed.

Section PointsLoop.
Variables (debug : bool) (dim : nat) (uh : list R) (duh : list Tensor1).
Hypothesis tensors : Forall (fun g : Tensor1 => length g = dim) duh.

Lemma process_point_in_range (q : nat) (cq : list (list R)) :
  q < length uh -> q < length duh -> q < length cq ->
  Forall (fun row => length row = dim + 2) cq ->
  Postprocessor.process_point debug dim uh duh q cq
  = if debug && negb (Rge_bool (radicand (nth q uh 0%R) (nth q duh [])) 0)
    then Thrown (ExcMessage "Sqrt of negative!")
    else Normal (<[q := point_row uh duh q]> cq).
Proof.
  intros Hu Hg Hc Hrows.
  destruct (lookup_lt_is_Some_2 uh q Hu) as [u Hu'].
  destruct (lookup_lt_is_Some_2 duh q Hg) as [g Hg'].
  destruct (lookup_lt_is_Some_2 cq q Hc) as [row Hrow].
  unfold point_row.
  rewrite (nth_lookup_Some uh q 0%R u Hu'), (nth_lookup_Some duh q [] g Hg').
  apply (process_point_spec debug dim uh duh q cq u g row); trivial.
  - exact (proj1 (Forall_lookup _ _) tensors q g Hg').
  - exact (proj1 (Forall_lookup _ _) Hrows q row Hrow).
Qed.

Lemma point_row_length (q : nat) :
  q < length duh -> length (point_row uh duh q) = dim + 2.
Proof.
  intros Hg. unfold point_row. rewrite derived_quantities_length.
  destruct (lookup_lt_is_Some_2 duh q Hg) as [g Hg'].
  rewrite (nth_lookup_Some duh q [] g Hg').
  now rewrite (proj1 (Forall_lookup _ _) tensors q g Hg').
Qed.

(** Where no assertion fires, the loop over [q] replaces the rows
    [i .. i+c) and returns. *)
Lemma points_loop_returns (c : nat) :
  forall (i : nat) (cq : list (list R)),
    i + c <= length uh -> i + c <= length duh -> i + c <= length cq ->
    Forall (fun row => length row = dim + 2) cq ->
    (debug = true -> forall j, i <= j < i + c ->
       (0 <= radicand (nth j uh 0%R) (nth j duh []))%R) ->
    for_loop i c (Postprocessor.process_point debug dim uh duh) cq
    = Normal (fill_range (point_row uh duh) i c cq).
Proof.
  induction c as [| c IH]; intros i cq Hu Hg Hc Hrows Hrad; simpl.
  - reflexivity.
  - rewrite process_point_in_range by (trivial; lia).
    assert (Hpass : debug && negb (Rge_bool (radicand (nth i uh 0%R) (nth i duh [])) 0)
                    = false).
    { destruct debug; [| reflexivity].
      rewrite Rge_bool_true; [reflexivity |]. apply Hrad; [reflexivity | lia]. }
    rewrite Hpass, bind_Normal.
    rewrite IH; [reflexivity | lia | lia | rewrite length_insert; lia | |].
    + apply Forall_insert; [exact Hrows |]. apply point_row_length. lia.
    + intros Hd j Hj. apply Hrad; [exact Hd | lia].
Qed.

(** In a debug build the loop raises as soon as it meets a negative
    radicand. *)
Lemma points_loop_raises (c : nat) :
  forall (i : nat) (cq : list (list R)),
    debug = true ->
    i + c <= length uh -> i + c <= length duh -> i + c <= length cq ->
    Forall (fun row => length row = dim + 2) cq ->
    (exists j, i <= j < i + c /\
       (radicand (nth j uh 0%R) (nth j duh []) < 0)%R) ->
    for_loop i c (Postprocessor.process_point debug dim uh duh) cq
    = Thrown (ExcMessage "Sqrt of negative!").
Proof.
  induction c as [| c IH]; intros i cq Hd Hu Hg Hc Hrows (j & Hj & Hneg); simpl.
  - lia.
  - rewrite process_point_in_range by (trivial; lia).
    destruct (Rlt_dec (radicand (nth i uh 0%R) (nth i duh [])) 0) as [Hi | Hi].
    + rewrite Rge_bool_false by exact Hi.
      replace (debug && negb false) with true by now rewrite Hd.
      reflexivity.
    + rewrite Rge_bool_true by lra.
      replace (debug && negb true) with false by now destruct debug.
      rewrite bind_Normal.
      apply IH; [exact Hd | lia | lia | rewrite length_insert; lia | |].
      * apply Forall_insert; [exact Hrows |]. apply point_row_length. lia.
      * exists j. split; [| exact Hneg].
        destruct (decide (j = i)) as [-> | Hne]; [contradiction | lia].
Qed.
End PointsLoop.

(** ** The whole call *)

Lemma lookup_nth_radicand (uh : list R) (duh : list Tensor1) (j : nat) :
  radicands_nonneg uh duh -> j < length uh -> j < length duh ->
  (0 <= radicand (nth j uh 0%R) (nth j duh []))%R.
Proof.
  intros Hrad Hu Hg.
  destruct (lookup_lt_is_Some_2 uh j Hu) as [u Hu'].
  destruct (lookup_lt_is_Some_2 duh j Hg) as [g Hg'].
  rewrite (nth_lookup_Some uh j 0%R u Hu'), (nth_lookup_Some duh j [] g Hg').
  exact (Hrad j u g Hu' Hg').
Qed.

Lemma asserts_pass (dim : nat) (uh : list R) (duh : list Tensor1)
      (cq : list (list R)) (A : Type) (k : outcome A) (debug : bool) :
  well_shaped dim uh duh cq -> cq <> [] ->
  (Assert debug (Normal (length duh =? static_cast_unsigned_int (length uh)))
          ExcInternalError;;
   Assert debug (Normal (length cq =? static_cast_unsigned_int (length uh)))
          ExcInternalError;;
   Assert debug (row0 ← index cq 0; Normal (length row0 =? dim + 2))
          ExcInternalError;;
   k) = k.
Proof.
  intros [Hduh Hrows Hrow _] Hne.
  destruct debug; [| reflexivity].
  unfold Assert. rewrite Hduh, Hrows, Nat.eqb_refl.
  destruct cq as [| row0 cq]; [congruence |].
  apply Forall_cons in Hrow as [Hrow0 _].
  unfold index. simpl. rewrite Hrow0, Nat.eqb_refl. reflexivity.
Qed.

(** On well-shaped arguments whose radicands the assertion accepts, the call
    returns, with every row replaced by the derived quantities of its
    point. *)
Lemma compute_returns (debug : bool) (dim : nat) (uh : list R)
      (duh : list Tensor1) (dduh : list Tensor2) (normals points : list Point)
      (cq : list (list R)) :
  well_shaped dim uh duh cq ->
  (debug = true ->
   cq <> [] /\
   forall j, j < static_cast_unsigned_int (length uh) ->
             (0 <= radicand (nth j uh 0%R) (nth j duh []))%R) ->
  Postprocessor.compute_derived_quantities_scalar
    debug dim uh duh dduh normals points cq
  = Normal (fill_range (point_row uh duh) 0
                       (static_cast_unsigned_int (length uh)) cq).
Proof.
  intros Hws Hdebug.
  pose proof (static_cast_unsigned_int_le (length uh)) as Hn.
  pose proof Hws as [Hduh Hrows Hrow Hten].
  assert (Hloop :
    for_loop 0 (static_cast_unsigned_int (length uh))
             (Postprocessor.process_point debug dim uh duh) cq
    = Normal (fill_range (point_row uh duh) 0
                         (static_cast_unsigned_int (length uh)) cq)).
  { apply points_loop_returns; trivial; try lia.
    intros Hd j Hj. apply (proj2 (Hdebug Hd)). lia. }
  unfold Postprocessor.compute_derived_quantities_scalar. cbv zeta.
  destruct debug.
  - rewrite asserts_pass; [exact Hloop | exact Hws | now apply Hdebug].
  - exact Hloop.
Qed.

(** In a debug build, a negative radicand at any point makes the call raise
    the message of the assertion. *)
Lemma compute_raises (dim : nat) (uh : list R)
      (duh : list Tensor1) (dduh : list Tensor2) (normals points : list Point)
      (cq : list (list R)) (q : nat) :
  well_shaped dim uh duh cq ->
  q < static_cast_unsigned_int (length uh) ->
  (radicand (nth q uh 0%R) (nth q duh []) < 0)%R ->
  Postprocessor.compute_derived_quantities_scalar
    true dim uh duh dduh normals points cq
  = Thrown (ExcMessage "Sqrt of negative!").
Proof.
  intros Hws Hq Hneg.
  pose proof (static_cast_unsigned_int_le (length uh)) as Hn.
  pose proof Hws as [Hduh Hrows Hrow Hten].
  unfold Postprocessor.compute_derived_quantities_scalar. cbv zeta.
  rewrite asserts_pass; [| exact Hws | intros ->; simpl in Hrows; lia].
  apply points_loop_raises; trivial; try lia.
  exists q. split; [lia | exact Hneg].
Qed.

(** ** The square root is never taken of a negative number *)

Lemma for_loop_no_domain_error {S : Type} (body : nat -> S -> outcome S) :
  (forall i s, body i s <> DomainError) ->
  forall c i s, for_loop i c body s <> DomainError.
Proof.
  intros Hbody. induction c as [| c IH]; intros i s; simpl; [discriminate |].
  pose proof (Hbody i s) as Hb.
  destruct (body i s); simpl; try discriminate; [apply IH | congruence].
Qed.

Lemma index_no_domain_error {A : Type} (v : list A) (i : nat) :
  index v i <> DomainError.
Proof. unfold index. destruct (v !! i); discriminate. Qed.

Lemma store_no_domain_error {A : Type} (v : list A) (i : nat) (x : A) :
  store v i x <> DomainError.
Proof. unfold store. destruct (decide (i < length v)); discriminate. Qed.

Lemma bind_no_domain_error {A B : Type} (c : outcome A) (k : A -> outcome B) :
  c <> DomainError -> (forall a, k a <> DomainError) ->
  (c ≫= k) <> DomainError.
Proof.
  intros Hc Hk. destruct c; simpl; try discriminate; [apply Hk | congruence].
Qed.

Lemma copy_component_no_domain_error (g : Tensor1) (q d : nat)
      (st : list (list R) * R) :
  Postprocessor.copy_component g q d st <> DomainError.
Proof.
  destruct st as [cq l1]. unfold Postprocessor.copy_component.
  apply bind_no_domain_error; [apply index_no_domain_error |]. intros row.
  apply bind_no_domain_error; [apply store_no_domain_error |]. discriminate.
Qed.

Lemma Assert_no_domain_error (debug : bool) (cond : outcome bool) (e : Exception) :
  cond <> DomainError -> Assert debug cond e <> DomainError.
Proof.
  intros Hc. unfold Assert. destruct debug; [| discriminate].
  apply bind_no_domain_error; [exact Hc |]. intros []; discriminate.
Qed.

Lemma process_point_no_domain_error (debug : bool) (dim : nat) (uh : list R)
      (duh : list Tensor1) (q : nat) (cq : list (list R)) :
  Postprocessor.process_point debug dim uh duh q cq <> DomainError.
Proof.
  unfold Postprocessor.process_point.
  apply bind_no_domain_error; [apply index_no_domain_error |]. intros g.
  apply bind_no_domain_error; [apply index_no_domain_error |]. intros u.
  cbv zeta.
  apply bind_no_domain_error.
  { apply for_loop_no_domain_error. intros. apply copy_component_no_domain_error. }
  intros [cq' l1].
  apply bind_no_domain_error; [now apply Assert_no_domain_error |]. intros _.
  rewrite std_sqrt_clamped.
  apply bind_no_domain_error; [discriminate |]. intros s.
  apply bind_no_domain_error; [apply index_no_domain_error |]. intros row.
  apply bind_no_domain_error; [apply store_no_domain_error |]. intros row'.
  apply bind_no_domain_error; [discriminate |]. intros s'.
  apply bind_no_domain_error; [apply index_no_domain_error |]. intros row2.
  apply bind_no_domain_error; [apply store_no_domain_error |]. discriminate.
Qed.

Lemma compute_no_domain_error (debug : bool) (dim : nat) (uh : list R)
      (duh : list Tensor1) (dduh : list Tensor2) (normals points : list Point)
      (cq : list (list R)) :
  Postprocessor.compute_derived_quantities_scalar
    debug dim uh duh dduh normals points cq <> DomainError.
Proof.
  unfold Postprocessor.compute_derived_quantities_scalar. cbv zeta.
  apply bind_no_domain_error; [now apply Assert_no_domain_error |]. intros _.
  apply bind_no_domain_error; [now apply Assert_no_domain_error |]. intros _.
  apply bind_no_domain_error.
  { apply Assert_no_domain_error.
    apply bind_no_domain_error; [apply index_no_domain_error | discriminate]. }
  intros _. apply for_loop_no_domain_error. intros.
  apply process_point_no_domain_error.
Qed.

(** Whenever the call returns on well-shaped arguments, it returns the rows
    of the derived quantities. *)
Lemma compute_Normal_inv (debug : bool) (dim : nat) (uh : list R)
      (duh : list Tensor1) (dduh : list Tensor2) (normals points : list Point)
      (cq out : list (list R)) :
  well_shaped dim uh duh cq ->
  static_cast_unsigned_int (length uh) <> 0 ->
  Postprocessor.compute_derived_quantities_scalar
    debug dim uh duh dduh normals points cq = Normal out ->
  out = fill_range (point_row uh duh) 0
                   (static_cast_unsigned_int (length uh)) cq.
Proof.
  intros Hws Hn Hout.
  assert (Hne : cq <> []).
  { intros ->. destruct Hws as [_ Hrows _ _]. simpl in Hrows. lia. }
  destruct debug.
  - assert (Hrad : forall j, j < static_cast_unsigned_int (length uh) ->
                             (0 <= radicand (nth j uh 0%R) (nth j duh []))%R).
    { intros j Hj.
      destruct (Rlt_dec (radicand (nth j uh 0%R) (nth j duh [])) 0) as [Hneg | ?];
        [| lra].
      rewrite (compute_raises dim uh duh dduh normals points cq j Hws Hj Hneg)
        in Hout.
      discriminate. }
    rewrite compute_returns in Hout by (trivial; now split).
    now injection Hout as <-.
  - rewrite compute_returns in Hout by (trivial; discriminate).
    now injection Hout as <-.
Qed.

(** Row [q] of the filled output. *)
Lemma filled_row (dim : nat) (uh : list R) (duh : list Tensor1)
      (cq : list (list R)) (q : nat) :
  well_shaped dim uh duh cq ->
  q < static_cast_unsigned_int (length uh) ->
  exists u g,
    uh !! q = Some u /\ duh !! q = Some g /\ length g = dim /\
    fill_range (point_row uh duh) 0 (static_cast_unsigned_int (length uh)) cq !! q
    = Some (derived_quantities u g).
Proof.
  intros [Hduh Hrows Hrow Hten] Hq.
  pose proof (static_cast_unsigned_int_le (length uh)) as Hn.
  destruct (lookup_lt_is_Some_2 uh q) as [u Hu]; [lia |].
  destruct (lookup_lt_is_Some_2 duh q) as [g Hg]; [lia |].
  exists u, g. repeat split; trivial.
  - exact (proj1 (Forall_lookup _ _) Hten q g Hg).
  - rewrite fill_range_lookup_in by lia. unfold point_row.
    now rewrite (nth_lookup_Some uh q 0%R u Hu), (nth_lookup_Some duh q [] g Hg).
Qed.

Lemma derived_quantities_lookup (u : R) (g : Tensor1) :
  take (length g) (derived_quantities u g) = g /\
  derived_quantities u g !! length g = Some (sMin u g) /\
  derived_quantities u g !! (length g + 1) = Some (sMax u g).
Proof.
  unfold derived_quantities. repeat split.
  - now rewrite take_app_length.
  - rewrite lookup_app_r by lia. now replace (length g - length g) with 0 by lia.
  - rewrite lookup_app_r by lia.
    now replace (length g + 1 - length g) with 1 by lia.
Qed.

(** ** The solver loop *)

Section SolverLoop.
Variables (control : SolverControl) (res : nat -> R).

Lemma check_success (step : nat) :
  (res step <= tolerance control)%R ->
  SolverControl_check control step (res step) = success.
Proof.
  intros H. unfold SolverControl_check.
  destruct (Rle_dec (res step) (tolerance control)); [reflexivity | lra].
Qed.

Lemma check_iterate (step : nat) :
  (res step > tolerance control)%R -> step < max_steps control ->
  SolverControl_check control step (res step) = iterate.
Proof.
  intros H Hs. unfold SolverControl_check.
  destruct (Rle_dec (res step) (tolerance control)); [lra |].
  destruct (Nat.leb_spec (max_steps control) step); [lia | reflexivity].
Qed.

Lemma check_failure (step : nat) :
  (res step > tolerance control)%R -> max_steps control <= step ->
  SolverControl_check control step (res step) = failure.
Proof.
  intros H Hs. unfold SolverControl_check.
  destruct (Rle_dec (res step) (tolerance control)); [lra |].
  destruct (Nat.leb_spec (max_steps control) step); [reflexivity | lia].
Qed.

(** The loop stops with success at the first step whose residual is
    within the tolerance, when there is one up to the cap. *)
Lemma cg_loop_success (k : nat) :
  forall remaining it,
    it <= k -> k <= it + remaining -> k <= max_steps control ->
    (res k <= tolerance control)%R ->
    (forall j, it <= j < k -> (res j > tolerance control)%R) ->
    cg_loop control res remaining it = (success, k).
Proof.
  induction remaining as [| r IH]; intros it Hit Hk Hcap Hres Hbefore.
  - assert (it = k) as -> by lia. simpl. now rewrite check_success.
  - destruct (decide (it = k)) as [-> | Hne].
    + simpl. now rewrite check_success.
    + simpl. rewrite check_iterate by (try apply Hbefore; lia).
      apply IH; try lia; trivial. intros j Hj. apply Hbefore. lia.
Qed.

(** It stops with failure at the cap when no residual up to the cap is
    within the tolerance. *)
Lemma cg_loop_failure :
  forall remaining it,
    it + remaining = max_steps control ->
    (forall j, it <= j <= max_steps control -> (res j > tolerance control)%R) ->
    cg_loop control res remaining it = (failure, max_steps control).
Proof.
  induction remaining as [| r IH]; intros it Hit Hres.
  - simpl. rewrite check_failure by (try apply Hres; lia).
    f_equal. lia.
  - simpl. rewrite check_iterate by (try apply Hres; lia).
    apply IH; [lia |]. intros j Hj. apply Hres. lia.
Qed.

(** With the cap as bound, the loop never stops for lack of steps. *)
Lemma cg_loop_decides :
  forall remaining it,
    it + remaining = max_steps control ->
    fst (cg_loop control res remaining it) <> iterate.
Proof.
  induction remaining as [| r IH]; intros it Hit; simpl.
  - unfold SolverControl_check.
    destruct (Rle_dec (res it) (tolerance control)); [discriminate |].
    destruct (Nat.leb_spec (max_steps control) it); [discriminate | lia].
  - destruct (SolverControl_check control it (res it)); simpl;
      try discriminate.
    apply IH. lia.
Qed.
End SolverLoop.

(** ** The solve stage and the run *)

Section DriverFacts.
Context {Triangulation DoFHandler SparsityPattern SparseMatrix : Type}.
Variables (debug : bool) (dim : nat).
Let Problem : Type := @Step4 Triangulation DoFHandler SparsityPattern SparseMatrix.
Variable cg_iterate :
  SparseMatrix -> Vector -> Vector -> PreconditionSSOR SparseMatrix ->
  nat -> Vector.
Variable cg_residual :
  SparseMatrix -> Vector -> Vector -> PreconditionSSOR SparseMatrix ->
  nat -> R.
Variable patch_samples : DoFHandler -> Vector -> list (list R * list Tensor1).
Variables make_grid setup_system assemble_system :
  @Step4 Triangulation DoFHandler SparsityPattern SparseMatrix ->
  Run DoFHandler (@Step4 Triangulation DoFHandler SparsityPattern SparseMatrix).

Lemma SolverCG_solve_success (control : SolverControl) (A : SparseMatrix)
      (x b : Vector) (P : PreconditionSSOR SparseMatrix) (k : nat) :
  k <= max_steps control ->
  (cg_residual A x b P k <= tolerance control)%R ->
  (forall j, j < k -> (cg_residual A x b P j > tolerance control)%R) ->
  SolverCG_solve cg_iterate cg_residual control A x b P
  = Normal (cg_iterate A x b P k, k).
Proof.
  intros Hk Hres Hbefore. unfold SolverCG_solve.
  rewrite (cg_loop_success control _ k); trivial; try lia.
  intros j Hj. apply Hbefore. lia.
Qed.

Lemma SolverCG_solve_failure (control : SolverControl) (A : SparseMatrix)
      (x b : Vector) (P : PreconditionSSOR SparseMatrix) :
  (forall j, j <= max_steps control ->
             (cg_residual A x b P j > tolerance control)%R) ->
  SolverCG_solve cg_iterate cg_residual control A x b P
  = Thrown (NoConvergence (max_steps control)
                          (cg_residual A x b P (max_steps control))).
Proof.
  intros Hres. unfold SolverCG_solve.
  rewrite cg_loop_failure; trivial.
  intros j Hj. apply Hres. lia.
Qed.

Lemma solve_success (s : Problem) (w : World DoFHandler) (k : nat) :
  k <= 1000 ->
  (residuals cg_residual s k <= 1e-12)%R ->
  (forall j, j < k -> (residuals cg_residual s j > 1e-12)%R) ->
  solve cg_iterate cg_residual s w
  = (Normal {| triangulation := triangulation s;
               dof_handler := dof_handler s;
               sparsity_pattern := sparsity_pattern s;
               system_matrix := system_matrix s;
               solution := iterates cg_iterate s k;
               system_rhs := system_rhs s |},
     {| console := console w ++
                   ["   " +:+ pretty k
                    +:+ " CG iterations needed to obtain convergence."];
        files := files w |}).
Proof.
  intros Hk Hres Hbefore. unfold solve. cbv zeta.
  unfold run_bind, lift.
  rewrite (SolverCG_solve_success _ _ _ _ _ k); trivial.
Qed.

Lemma solve_failure (s : Problem) (w : World DoFHandler) :
  (forall j, j <= 1000 -> (residuals cg_residual s j > 1e-12)%R) ->
  solve cg_iterate cg_residual s w
  = (Thrown (NoConvergence 1000 (residuals cg_residual s 1000)), w).
Proof.
  intros Hres. unfold solve. cbv zeta.
  unfold run_bind, lift.
  rewrite SolverCG_solve_failure; trivial.
Qed.

(** When the three stages before the solve return, [run] is the solve
    followed by the output stage. *)
Lemma run_after_assembly (s0 s1 s2 s3 : Problem) (w0 w1 w2 w3 : World DoFHandler) :
  make_grid s0 (started dim w0) = (Normal s1, w1) ->
  setup_system s1 w1 = (Normal s2, w2) ->
  assemble_system s2 w2 = (Normal s3, w3) ->
  run debug dim cg_iterate cg_residual patch_samples
      make_grid setup_system assemble_system s0 w0
  = run_bind (solve cg_iterate cg_residual s3)
             (output_results debug dim patch_samples) w3.
Proof.
  intros H1 H2 H3. unfold run.
  unfold run_bind at 1. unfold print. fold (started dim w0).
  unfold run_bind at 1. rewrite H1.
  unfold run_bind at 1. rewrite H2.
  unfold run_bind at 1. rewrite H3.
  reflexivity.
Qed.

(** Non-convergence ends the run where the assembly left the world. *)
Lemma run_no_convergence (s0 s1 s2 s3 : Problem) (w0 w1 w2 w3 : World DoFHandler) :
  make_grid s0 (started dim w0) = (Normal s1, w1) ->
  setup_system s1 w1 = (Normal s2, w2) ->
  assemble_system s2 w2 = (Normal s3, w3) ->
  (forall j, j <= 1000 -> (residuals cg_residual s3 j > 1e-12)%R) ->
  run debug dim cg_iterate cg_residual patch_samples
      make_grid setup_system assemble_system s0 w0
  = (Thrown (NoConvergence 1000 (residuals cg_residual s3 1000)), w3).
Proof.
  intros H1 H2 H3 Hres.
  rewrite (run_after_assembly s0 s1 s2 s3 w0 w1 w2 w3); trivial.
  unfold run_bind. now rewrite solve_failure.
Qed.
End DriverFacts.

(** ** Names and interpretations *)

Lemma iter_push_back {A : Type} (x : A) (n : nat) :
  Nat.iter n (Postprocessor.push_back x) [] = replicate n x.
Proof.
  induction n as [| n IH]; [reflexivity |].
  simpl. rewrite IH. unfold Postprocessor.push_back.
  symmetry. apply replicate_cons_app.
Qed.

Lemma get_names_eq (dim : nat) :
  Postprocessor.get_names dim
  = replicate dim "Diretion"%string ++ ["sMin"%string; "sMax"%string].
Proof.
  unfold Postprocessor.get_names, Postprocessor.push_back at 1 2. cbv zeta.
  rewrite iter_push_back, <- app_assoc. reflexivity.
Qed.

Lemma get_data_component_interpretation_eq (dim : nat) :
  Postprocessor.get_data_component_interpretation dim
  = replicate dim component_is_part_of_vector
      ++ [component_is_scalar; component_is_scalar].
Proof.
  unfold Postprocessor.get_data_component_interpretation,
    Postprocessor.push_back.
  cbv zeta. rewrite <- app_assoc. reflexivity.
Qed.

Lemma get_names_length (dim : nat) :
  length (Postprocessor.get_names dim) = dim + 2.
Proof. rewrite get_names_eq, length_app, length_replicate. reflexivity. Qed.

(** ** The output stage *)

Lemma filled_rows_zip (dim : nat) (uh : list R) (duh : list Tensor1)
      (cq : list (list R)) :
  length duh = length uh -> length cq = length uh ->
  fill_range (point_row uh duh) 0 (length uh) cq
  = zip_with derived_quantities uh duh.
Proof.
  intros Hduh Hcq. apply list_eq. intros j.
  destruct (decide (j < length uh)) as [Hj | Hj].
  - rewrite fill_range_lookup_in by lia.
    destruct (lookup_lt_is_Some_2 uh j) as [u Hu]; [lia |].
    destruct (lookup_lt_is_Some_2 duh j) as [g Hg]; [lia |].
    unfold point_row.
    rewrite (nth_lookup_Some uh j 0%R u Hu), (nth_lookup_Some duh j [] g Hg).
    symmetry. rewrite lookup_zip_with, Hu. simpl. now rewrite Hg.
  - rewrite fill_range_lookup_out by lia.
    rewrite (lookup_ge_None_2 cq) by lia.
    symmetry. apply lookup_ge_None_2. rewrite length_zip_with. lia.
Qed.

Lemma mapM_Normal {A B : Type} (f : A -> outcome B) (g : A -> B) (l : list A) :
  Forall (fun x => f x = Normal (g x)) l -> mapM f l = Normal (g <$> l).
Proof.
  induction 1 as [| x l Hx _ IH]; [reflexivity |].
  simpl. rewrite Hx, bind_Normal, IH. reflexivity.
Qed.

Section OutputFacts.
Context {Triangulation DoFHandler SparsityPattern SparseMatrix : Type}.
Variables (debug : bool) (dim : nat).
Variable patch_samples : DoFHandler -> Vector -> list (list R * list Tensor1).

Lemma postprocess_patch_returns (sample : list R * list Tensor1) :
  patch_ok debug dim sample ->
  postprocess_patch debug dim (dim + 2) sample
  = Normal (zip_with derived_quantities (fst sample) (snd sample)).
Proof.
  destruct sample as [uh duh]. intros [Hsz Hsmall Hten Hdbg]. simpl in *.
  unfold postprocess_patch.
  pose proof (static_cast_unsigned_int_small _ Hsmall) as Hn.
  rewrite compute_returns.
  - rewrite Hn. f_equal. apply (filled_rows_zip dim); trivial.
    apply length_replicate.
  - split; rewrite ?Hn; trivial.
    + apply length_replicate.
    + apply Forall_replicate. apply length_replicate.
  - intros Hd. destruct (Hdbg Hd) as [Hne Hrad]. split.
    + destruct uh; [congruence | discriminate].
    + intros j Hj. apply lookup_nth_radicand; trivial; lia.
Qed.

Lemma output_results_writes
      (s : @Step4 Triangulation DoFHandler SparsityPattern SparseMatrix) (w : World DoFHandler) :
  Forall (patch_ok debug dim) (patch_samples (dof_handler s) (solution s)) ->
  output_results debug dim patch_samples s w
  = (Normal tt,
     {| console := console w;
        files := <[output_file_name dim := vtk_data dim patch_samples s]> (files w) |}).
Proof.
  intros Hok. unfold output_results. cbv zeta.
  unfold run_bind, lift, build_patches.
  cbn [attached_dof_handler postprocessed_vectors derived_names
       named_vectors derived_interpretation].
  rewrite get_names_length.
  cbn [mapM].
  rewrite (mapM_Normal _
             (fun sample => zip_with derived_quantities (fst sample) (snd sample))).
  - reflexivity.
  - eapply Forall_impl; [exact Hok |]. intros sample Hs.
    now apply postprocess_patch_returns.
Qed.
End OutputFacts.

(** ** Both ways a call and a solve can end *)

Lemma fill_range_all {A : Type} (f : nat -> A) (l : list A) :
  fill_range f 0 (length l) l = f <$> seq 0 (length l).
Proof.
  apply list_eq. intros j. rewrite list_lookup_fmap.
  destruct (decide (j < length l)) as [Hj | Hj].
  - rewrite fill_range_lookup_in by lia.
    now rewrite lookup_seq_lt by lia.
  - rewrite fill_range_lookup_out by lia.
    rewrite (lookup_ge_None_2 l) by lia.
    now rewrite lookup_seq_ge by lia.
Qed.

Lemma radicands_decided (uh : list R) (duh : list Tensor1) (n : nat) :
  (forall j, j < n -> (0 <= radicand (nth j uh 0%R) (nth j duh []))%R)
  \/ (exists j, j < n /\ (radicand (nth j uh 0%R) (nth j duh []) < 0)%R).
Proof.
  induction n as [| n [IH | (j & Hj & Hneg)]].
  - left. intros j Hj. lia.
  - destruct (Rlt_dec (radicand (nth n uh 0%R) (nth n duh [])) 0) as [Hn | Hn].
    + right. exists n. split; [lia | exact Hn].
    + left. intros j Hj. destruct (decide (j = n)) as [-> | Hne]; [lra |].
      apply IH. lia.
  - right. exists j. split; [lia | exact Hneg].
Qed.

(** On well-shaped arguments the outcome does not depend on what the output
    buffer held before the call. *)
Lemma compute_buffer_irrelevant (debug : bool) (dim : nat) (uh : list R)
      (duh : list Tensor1) (dduh dduh' : list Tensor2)
      (normals normals' points points' : list Point)
      (cq cq' : list (list R)) :
  well_shaped dim uh duh cq -> well_shaped dim uh duh cq' ->
  Postprocessor.compute_derived_quantities_scalar
    debug dim uh duh dduh normals points cq
  = Postprocessor.compute_derived_quantities_scalar
      debug dim uh duh dduh' normals' points' cq'.
Proof.
  intros Hws Hws'.
  pose proof Hws as [_ Hrows _ _]. pose proof Hws' as [_ Hrows' _ _].
  destruct (decide (static_cast_unsigned_int (length uh) = 0)) as [Hz | Hnz].
  { rewrite Hz in Hrows, Hrows'.
    destruct cq; [| discriminate]. destruct cq'; [| discriminate]. reflexivity. }
  assert (Hne : cq <> []) by (intros ->; simpl in Hrows; lia).
  assert (Hne' : cq' <> []) by (intros ->; simpl in Hrows'; lia).
  assert (Hsame :
    fill_range (point_row uh duh) 0 (static_cast_unsigned_int (length uh)) cq
    = fill_range (point_row uh duh) 0 (static_cast_unsigned_int (length uh)) cq').
  { rewrite <- Hrows at 1. rewrite <- Hrows' at 1.
    rewrite !fill_range_all. now rewrite Hrows, Hrows'. }
  destruct (radicands_decided uh duh (static_cast_unsigned_int (length uh)))
    as [Hrad | (j & Hj & Hneg)].
  - rewrite !compute_returns by (trivial; now split). now rewrite Hsame.
  - destruct debug.
    + now rewrite !(compute_raises dim uh duh _ _ _ _ j).
    + rewrite !compute_returns by (trivial; discriminate). now rewrite Hsame.
Qed.

Lemma tolerance_below_one : (1 > 1e-12)%R.
Proof.
  apply Rlt_gt. apply Rmult_lt_reg_r with (r := IZR (Z.pow_pos 10 12)).
  - apply IZR_lt. reflexivity.
  - unfold Rdiv. rewrite Rmult_assoc, Rinv_l.
    + rewrite Rmult_1_r, Rmult_1_l. apply IZR_lt. reflexivity.
    + apply not_0_IZR. discriminate.
Qed.

Lemma first_within (res : nat -> R) (tol : R) (n : nat) :
  (exists k, k <= n /\ (res k <= tol)%R /\ forall j, j < k -> (res j > tol)%R)
  \/ (forall j, j <= n -> (res j > tol)%R).
Proof.
  induction n as [| n [(k & Hk & Hres & Hbefore) | IH]].
  - destruct (Rle_dec (res 0) tol) as [H0 | H0].
    + left. exists 0. repeat split; trivial. intros j Hj. lia.
    + right. intros j Hj. assert (j = 0) as -> by lia. lra.
  - left. exists k. repeat split; trivial. lia.
  - destruct (Rle_dec (res (S n)) tol) as [Hn | Hn].
    + left. exists (S n). repeat split; trivial.
      intros j Hj. apply IH. lia.
    + right. intros j Hj. destruct (decide (j = S n)) as [-> | Hne]; [lra |].
      apply IH. lia.
Qed.

(** When CG converges within the cap and the post-processor accepts the
    patches, the run returns and its last act is to write the file. *)
Lemma run_converged
      {Triangulation DoFHandler SparsityPattern SparseMatrix : Type}
      (debug : bool) (dim : nat)
      (cg_iterate :
         SparseMatrix -> Vector -> Vector -> PreconditionSSOR SparseMatrix ->
         nat -> Vector)
      (cg_residual :
         SparseMatrix -> Vector -> Vector -> PreconditionSSOR SparseMatrix ->
         nat -> R)
      (patch_samples : DoFHandler -> Vector -> list (list R * list Tensor1))
      (make_grid setup_system assemble_system :
         @Step4 Triangulation DoFHandler SparsityPattern SparseMatrix ->
         Run DoFHandler
             (@Step4 Triangulation DoFHandler SparsityPattern SparseMatrix))
      s0 s1 s2 s3 (w0 w1 w2 w3 : World DoFHandler) (k : nat) :
  make_grid s0 (started dim w0) = (Normal s1, w1) ->
  setup_system s1 w1 = (Normal s2, w2) ->
  assemble_system s2 w2 = (Normal s3, w3) ->
  k <= 1000 ->
  (residuals cg_residual s3 k <= 1e-12)%R ->
  (forall j, j < k -> (residuals cg_residual s3 j > 1e-12)%R) ->
  Forall (patch_ok debug dim)
         (patch_samples (dof_handler s3) (iterates cg_iterate s3 k)) ->
  exists data,
    solution_written data = iterates cg_iterate s3 k /\
    run debug dim cg_iterate cg_residual patch_samples
        make_grid setup_system assemble_system s0 w0
    = (Normal tt,
       {| console := console w3 ++
                     ["   " +:+ pretty k
                      +:+ " CG iterations needed to obtain convergence."];
          files := <[output_file_name dim := data]> (files w3) |}).
Proof.
  intros H1 H2 H3 Hk Hres Hbefore Hok.
  eexists. split; cycle 1.
  - rewrite (run_after_assembly debug dim cg_iterate cg_residual patch_samples
               make_grid setup_system assemble_system s0 s1 s2 s3 w0 w1 w2 w3);
      trivial.
    unfold run_bind.
    rewrite (solve_success cg_iterate cg_residual s3 w3 k); trivial.
    rewrite output_results_writes by exact Hok.
    reflexivity.
  - reflexivity.
Qed.

(** * The properties of the specification *)

(** ** Facts about the sample inputs *)

Lemma sample_well_shaped : well_shaped 2 sample_uh sample_duh sample_rows.
Proof. split; [reflexivity | reflexivity | |]; repeat constructor. Qed.

Lemma sample_radicands : radicands_nonneg sample_uh sample_duh.
Proof.
  intros [| q] u g Hu Hg; [| discriminate].
  injection Hu as <-. injection Hg as <-.
  unfold radicand, norm2_square. simpl. lra.
Qed.

Lemma negative_well_shaped : well_shaped 1 negative_uh negative_duh negative_rows.
Proof. split; [reflexivity | reflexivity | |]; repeat constructor. Qed.

Lemma sample_patch_ok (debug : bool) : patch_ok debug 2 (sample_uh, sample_duh).
Proof.
  split; simpl.
  - reflexivity.
  - reflexivity.
  - repeat constructor.
  - intros _. split; [discriminate | exact sample_radicands].
Qed.

Lemma sqrt_25 : sqrt 25 = 5%R.
Proof. replace 25%R with (5 * 5)%R by lra. apply sqrt_square. lra. Qed.

Lemma sample_row_value :
  derived_quantities 0 [3%R; 4%R] = [3%R; 4%R; (-2)%R; 12%R].
Proof.
  unfold derived_quantities, sMin, sMax, radicand, norm2_square, norm1.
  simpl.
  replace (3 * 3 + (4 * 4 + 0) + 2 * 0)%R with 25%R by lra.
  rewrite Rmax_left by lra. rewrite sqrt_25.
  rewrite !Rabs_pos_eq by lra.
  repeat f_equal; lra.
Qed.

Lemma sample_output (debug : bool) :
  Postprocessor.compute_derived_quantities_scalar
    debug 2 sample_uh sample_duh [] [] [] sample_rows
  = Normal [[3%R; 4%R; (-2)%R; 12%R]].
Proof.
  rewrite compute_returns.
  - change (static_cast_unsigned_int (length sample_uh)) with 1.
    unfold fill_range, point_row. simpl. now rewrite sample_row_value.
  - exact sample_well_shaped.
  - intros _. split; [discriminate |]. intros j Hj.
    apply lookup_nth_radicand; [exact sample_radicands | |];
      change (static_cast_unsigned_int (length sample_uh)) with 1 in Hj;
      simpl; lia.
Qed.

(** ** C1 *)

(** C1. For every quadrature point [q], [compute_derived_quantities_scalar]
    returns and leaves in row [q] a vector of [dim + 2] components: the first
    [dim] are the gradient [duh[q]], component [dim] is
    sqrt (max (|duh[q]|^2 + 2 uh[q], 0)) minus the sum of the |duh[q][k]|,
    and component [dim + 1] is the same square root plus that sum.  The
    arguments are those the function asserts (sizes) and, in a debug build,
    radicands the assertion accepts. *)
Theorem C1_derived_quantities_per_point
        (debug : bool) (dim : nat) (uh : list R) (duh : list Tensor1)
        (dduh : list Tensor2) (normals points : list Point)
        (computed_quantities : list (list R)) (q : nat) :
  well_shaped dim uh duh computed_quantities ->
  (debug = true -> radicands_nonneg uh duh) ->
  q < static_cast_unsigned_int (length uh) ->
  exists out u g row,
    Postprocessor.compute_derived_quantities_scalar
      debug dim uh duh dduh normals points computed_quantities = Normal out /\
    uh !! q = Some u /\ duh !! q = Some g /\ out !! q = Some row /\
    length row = dim + 2 /\
    take dim row = g /\
    row !! dim
    = Some (sqrt (Rmax (norm2_square g + 2 * u) 0) - norm1 g)%R /\
    row !! (dim + 1)
    = Some (sqrt (Rmax (norm2_square g + 2 * u) 0) + norm1 g)%R.
Proof.
  intros Hws Hrad Hq.
  pose proof (static_cast_unsigned_int_le (length uh)) as Hn.
  destruct (filled_row dim uh duh computed_quantities q Hws Hq)
    as (u & g & Hu & Hg & Hlen & Hrow).
  destruct (derived_quantities_lookup u g) as (Htake & Hmin & Hmax).
  exists (fill_range (point_row uh duh) 0
                     (static_cast_unsigned_int (length uh)) computed_quantities),
    u, g, (derived_quantities u g).
  rewrite Hlen in Htake, Hmin, Hmax.
  repeat split; trivial.
  - apply compute_returns; [exact Hws |]. intros Hd. split.
    + destruct Hws as [_ Hrows _ _]. intros ->. simpl in Hrows. lia.
    + intros j Hj. destruct Hws as [Hduh _ _ _].
      apply lookup_nth_radicand; [now apply Hrad | lia | lia].
  - rewrite derived_quantities_length. lia.
Qed.

Lemma C1_derived_quantities_per_point_witness :
  exists out u g row,
    Postprocessor.compute_derived_quantities_scalar
      true 2 sample_uh sample_duh [] [] [] sample_rows = Normal out /\
    sample_uh !! 0 = Some u /\ sample_duh !! 0 = Some g /\
    out !! 0 = Some row /\
    length row = 2 + 2 /\
    take 2 row = g /\
    row !! 2 = Some (sqrt (Rmax (norm2_square g + 2 * u) 0) - norm1 g)%R /\
    row !! (2 + 1)
    = Some (sqrt (Rmax (norm2_square g + 2 * u) 0) + norm1 g)%R.
Proof.
  apply (C1_derived_quantities_per_point
           true 2 sample_uh sample_duh [] [] [] sample_rows 0).
  - exact sample_well_shaped.
  - intros _. exact sample_radicands.
  - vm_compute. lia.
Defined.

(** ** C3 *)

(** C3 as stated fails: at the point with value 0 and gradient (3, 4) the
    call returns sMin = -2 and sMax = 12, so 0 <= sMin <= sMax is false. *)
Lemma C3_sMin_can_be_negative :
  Postprocessor.compute_derived_quantities_scalar
    true 2 sample_uh sample_duh [] [] [] sample_rows
  = Normal [[3%R; 4%R; (-2)%R; 12%R]]
  /\ ~ (0 <= -2 <= 12)%R.
Proof. split; [apply sample_output | lra]. Qed.

(** C3, amended. Whenever the call returns on well-shaped arguments, every
    processed point has sMax >= sMin and sMax >= 0; sMin itself is
    non-negative exactly where the sum of the |g[k]| does not exceed the
    square root of the clamped radicand. *)
Theorem C3_sMax_bounds
        (debug : bool) (dim : nat) (uh : list R) (duh : list Tensor1)
        (dduh : list Tensor2) (normals points : list Point)
        (computed_quantities out : list (list R)) (q : nat) :
  well_shaped dim uh duh computed_quantities ->
  Postprocessor.compute_derived_quantities_scalar
    debug dim uh duh dduh normals points computed_quantities = Normal out ->
  q < static_cast_unsigned_int (length uh) ->
  exists u g row smin smax,
    uh !! q = Some u /\ duh !! q = Some g /\ out !! q = Some row /\
    row !! dim = Some smin /\ row !! (dim + 1) = Some smax /\
    (smax >= smin)%R /\ (smax >= 0)%R /\
    ((smin >= 0)%R <-> (norm1 g <= sqrt (Rmax (radicand u g) 0))%R).
Proof.
  intros Hws Hout Hq.
  apply compute_Normal_inv in Hout; [| exact Hws | lia]. subst out.
  destruct (filled_row dim uh duh computed_quantities q Hws Hq)
    as (u & g & Hu & Hg & Hlen & Hrow).
  destruct (derived_quantities_lookup u g) as (_ & Hmin & Hmax).
  rewrite Hlen in Hmin, Hmax.
  exists u, g, (derived_quantities u g), (sMin u g), (sMax u g).
  pose proof (norm1_nonneg g) as H1.
  pose proof (sqrt_pos (Rmax (radicand u g) 0)) as H2.
  unfold sMin, sMax.
  repeat split; trivial; lra.
Qed.

Lemma C3_sMax_bounds_witness :
  exists u g row smin smax,
    sample_uh !! 0 = Some u /\ sample_duh !! 0 = Some g /\
    [[3%R; 4%R; (-2)%R; 12%R]] !! 0 = Some row /\
    row !! 2 = Some smin /\ row !! (2 + 1) = Some smax /\
    (smax >= smin)%R /\ (smax >= 0)%R /\
    ((smin >= 0)%R <-> (norm1 g <= sqrt (Rmax (radicand u g) 0))%R).
Proof.
  apply (C3_sMax_bounds true 2 sample_uh sample_duh [] [] [] sample_rows
                        [[3%R; 4%R; (-2)%R; 12%R]] 0).
  - exact sample_well_shaped.
  - apply sample_output.
  - vm_compute. lia.
Defined.

(** ** C7 *)

(** C7. Where a point has a negative radicand, a debug build stops at the
    assertion with its message; a release build carries on with the radicand
    clamped to 0, so that sMin and sMax are sqrt 0 minus and plus the sum of
    the |g[k]|; and for no arguments at all, in either build, is the square
    root taken of a negative number. *)
Theorem C7_negative_radicand_asserted_and_clamped
        (dim : nat) (uh : list R) (duh : list Tensor1)
        (dduh : list Tensor2) (normals points : list Point)
        (computed_quantities : list (list R)) (q : nat) :
  well_shaped dim uh duh computed_quantities ->
  q < static_cast_unsigned_int (length uh) ->
  (radicand (nth q uh 0%R) (nth q duh []) < 0)%R ->
  Postprocessor.compute_derived_quantities_scalar
    true dim uh duh dduh normals points computed_quantities
  = Thrown (ExcMessage "Sqrt of negative!")
  /\ (exists out,
        Postprocessor.compute_derived_quantities_scalar
          false dim uh duh dduh normals points computed_quantities
        = Normal out /\
        out !! q = Some (nth q duh [] ++ [(sqrt 0 - norm1 (nth q duh []))%R;
                                          (sqrt 0 + norm1 (nth q duh []))%R]))
  /\ (forall debug' dim' uh' duh' dduh' normals' points' computed_quantities',
        Postprocessor.compute_derived_quantities_scalar
          debug' dim' uh' duh' dduh' normals' points' computed_quantities'
        <> DomainError).
Proof.
  intros Hws Hq Hneg. split; [| split].
  - now apply (compute_raises dim uh duh dduh normals points
                              computed_quantities q).
  - eexists. split.
    + apply compute_returns; [exact Hws | discriminate].
    + pose proof (static_cast_unsigned_int_le (length uh)) as Hn.
      destruct Hws as [Hduh Hrows _ _].
      rewrite fill_range_lookup_in by lia.
      unfold point_row, derived_quantities, sMin, sMax.
      rewrite Rmax_right by lra. reflexivity.
  - intros. apply compute_no_domain_error.
Qed.

Lemma C7_negative_radicand_asserted_and_clamped_witness :
  Postprocessor.compute_derived_quantities_scalar
    true 1 negative_uh negative_duh [] [] [] negative_rows
  = Thrown (ExcMessage "Sqrt of negative!")
  /\ (exists out,
        Postprocessor.compute_derived_quantities_scalar
          false 1 negative_uh negative_duh [] [] [] negative_rows
        = Normal out /\
        out !! 0 = Some (nth 0 negative_duh []
                           ++ [(sqrt 0 - norm1 (nth 0 negative_duh []))%R;
                               (sqrt 0 + norm1 (nth 0 negative_duh []))%R]))
  /\ (forall debug' dim' uh' duh' dduh' normals' points' computed_quantities',
        Postprocessor.compute_derived_quantities_scalar
          debug' dim' uh' duh' dduh' normals' points' computed_quantities'
        <> DomainError).
Proof.
  apply (C7_negative_radicand_asserted_and_clamped
           1 negative_uh negative_duh [] [] [] negative_rows 0).
  - exact negative_well_shaped.
  - vm_compute. lia.
  - unfold radicand, norm2_square. simpl. lra.
Defined.

(** ** C9 *)

(** C9. Two calls on the same [uh] and [duh] return the same thing whatever
    second derivatives, normals and points each is given: on one and the
    same output buffer for all arguments, and on well-shaped arguments also
    when the two buffers hold different values beforehand. *)
Theorem C9_unused_arguments
        (debug : bool) (dim : nat) (uh : list R) (duh : list Tensor1)
        (dduh dduh' : list Tensor2) (normals normals' points points' : list Point)
        (computed_quantities computed_quantities' : list (list R)) :
  well_shaped dim uh duh computed_quantities ->
  well_shaped dim uh duh computed_quantities' ->
  Postprocessor.compute_derived_quantities_scalar
    debug dim uh duh dduh normals points computed_quantities
  = Postprocessor.compute_derived_quantities_scalar
      debug dim uh duh dduh' normals' points' computed_quantities'
  /\ (forall buffer,
        Postprocessor.compute_derived_quantities_scalar
          debug dim uh duh dduh normals points buffer
        = Postprocessor.compute_derived_quantities_scalar
            debug dim uh duh dduh' normals' points' buffer).
Proof.
  intros Hws Hws'. split; [now apply compute_buffer_irrelevant | reflexivity].
Qed.

Lemma C9_unused_arguments_witness :
  Postprocessor.compute_derived_quantities_scalar
    true 2 sample_uh sample_duh [] [] [] sample_rows
  = Postprocessor.compute_derived_quantities_scalar
      true 2 sample_uh sample_duh [[[1%R]]] [[2%R]] [[5%R; 6%R]]
      [[7%R; 7%R; 7%R; 7%R]]
  /\ (forall buffer,
        Postprocessor.compute_derived_quantities_scalar
          true 2 sample_uh sample_duh [] [] [] buffer
        = Postprocessor.compute_derived_quantities_scalar
            true 2 sample_uh sample_duh [[[1%R]]] [[2%R]] [[5%R; 6%R]] buffer).
Proof.
  apply (C9_unused_arguments true 2 sample_uh sample_duh).
  - exact sample_well_shaped.
  - split; [reflexivity | reflexivity | |]; repeat constructor.
Defined.

(** ** C5 *)

(** C5. The right-hand side is 1 and the boundary value 0 at every point and
    component, so neither depends on its arguments. *)
Theorem C5_constant_functions :
  (forall p component, RightHandSide.value p component = 1%R)
  /\ (forall p component, BoundaryValues.value p component = 0%R)
  /\ (forall p p' component component',
        RightHandSide.value p component = RightHandSide.value p' component'
        /\ BoundaryValues.value p component
           = BoundaryValues.value p' component').
Proof. repeat split. Qed.

(** ** C4 *)

(** C4 fails on the code: the [dim] vector components are named
    "Diretion", a misspelling of "Direction"; the two scalar names and the
    order are as claimed. *)
Theorem C4_names_misspelt :
  (forall dim,
     Postprocessor.get_names dim
     = replicate dim "Diretion"%string ++ ["sMin"%string; "sMax"%string])
  /\ Postprocessor.get_names 2
     = ["Diretion"%string; "Diretion"%string; "sMin"%string; "sMax"%string]
  /\ Postprocessor.get_names 2
     <> ["Direction"%string; "Direction"%string; "sMin"%string; "sMax"%string].
Proof.
  split; [apply get_names_eq |]. split; [reflexivity | discriminate].
Qed.

(** ** C10 *)

(** C10. For every [dim] the names and the interpretations both have
    [dim + 2] entries, as many as a row of derived quantities has
    components; entry by entry, the first [dim] pair the vector-component
    name with [component_is_part_of_vector], and the last two pair "sMin"
    and "sMax" with [component_is_scalar]. *)
Theorem C10_names_aligned_with_interpretation (dim : nat) :
  length (Postprocessor.get_names dim) = dim + 2
  /\ length (Postprocessor.get_data_component_interpretation dim) = dim + 2
  /\ (forall u g, length (derived_quantities u g)
                  = length (Postprocessor.get_names (length g)))
  /\ zip (Postprocessor.get_names dim)
         (Postprocessor.get_data_component_interpretation dim)
     = replicate dim ("Diretion"%string, component_is_part_of_vector)
         ++ [("sMin"%string, component_is_scalar);
             ("sMax"%string, component_is_scalar)].
Proof.
  split; [apply get_names_length |]. split; [| split].
  - rewrite get_data_component_interpretation_eq, length_app, length_replicate.
    reflexivity.
  - intros u g. now rewrite derived_quantities_length, get_names_length.
  - rewrite get_names_eq, get_data_component_interpretation_eq.
    rewrite zip_with_app by now rewrite !length_replicate.
    now rewrite zip_with_replicate.
Qed.

(** ** C6 *)

(** C6. The solve stage runs deal.II's preconditioned CG on the system of
    the object, with SSOR at relaxation 1 as preconditioner, and ends in one
    of two ways: at the first step [k <= 1000] whose residual norm is at
    most 1e-12, where it returns the iterate [k] and prints the step count;
    or, where no step up to 1000 reaches that, as a failure at step 1000,
    the [NoConvergence] exception. *)
Theorem C6_solve_is_capped_cg_with_ssor
        {Triangulation DoFHandler SparsityPattern SparseMatrix : Type}
        (cg_iterate :
           SparseMatrix -> Vector -> Vector -> PreconditionSSOR SparseMatrix ->
           nat -> Vector)
        (cg_residual :
           SparseMatrix -> Vector -> Vector -> PreconditionSSOR SparseMatrix ->
           nat -> R)
        (s : @Step4 Triangulation DoFHandler SparsityPattern SparseMatrix)
        (w : World DoFHandler) :
  let preconditioner := {| ssor_matrix := system_matrix s; ssor_omega := 1 |} in
  let x := cg_iterate (system_matrix s) (solution s) (system_rhs s)
                      preconditioner in
  let res := cg_residual (system_matrix s) (solution s) (system_rhs s)
                         preconditioner in
  (exists k,
      k <= 1000 /\ (res k <= 1e-12)%R /\
      (forall j, j < k -> (res j > 1e-12)%R) /\
      solve cg_iterate cg_residual s w
      = (Normal {| triangulation := triangulation s;
                   dof_handler := dof_handler s;
                   sparsity_pattern := sparsity_pattern s;
                   system_matrix := system_matrix s;
                   solution := x k;
                   system_rhs := system_rhs s |},
         {| console := console w ++
                       ["   " +:+ pretty k
                        +:+ " CG iterations needed to obtain convergence."];
            files := files w |}))
  \/ ((forall j, j <= 1000 -> (res j > 1e-12)%R) /\
      solve cg_iterate cg_residual s w
      = (Thrown (NoConvergence 1000 (res 1000)), w)).
Proof.
  intros preconditioner x res.
  destruct (first_within res 1e-12 1000) as [(k & Hk & Hres & Hbefore) | Hnone].
  - left. exists k. repeat split; trivial.
    now apply solve_success.
  - right. split; [exact Hnone |]. now apply solve_failure.
Qed.

(** ** C2 *)

(** C2 as stated fails: on a system whose residual stays at 1, the run ends
    with the [NoConvergence] exception, and so does [main]; the world is left
    with the first status line only and without any file. *)
Lemma C2_non_convergence_is_fatal :
  run false 2 stalled_iterate stalled_residual no_patches
      run_ret run_ret run_ret blank_problem empty_world
  = (Thrown (NoConvergence 1000 1),
     {| console := ["Solving problem in 2 space dimensions."%string];
        files := ∅ |})
  /\ main false stalled_iterate stalled_residual no_patches
          run_ret run_ret run_ret blank_problem empty_world
     = (Thrown (NoConvergence 1000 1),
        {| console := ["Solving problem in 2 space dimensions."%string];
           files := ∅ |}).
Proof.
  assert (Hrun :
    run false 2 stalled_iterate stalled_residual no_patches
        run_ret run_ret run_ret blank_problem empty_world
    = (Thrown (NoConvergence 1000 1),
       {| console := ["Solving problem in 2 space dimensions."%string];
          files := ∅ |})).
  { apply (run_no_convergence false 2 stalled_iterate stalled_residual no_patches
             run_ret run_ret run_ret
             blank_problem blank_problem blank_problem blank_problem
             empty_world (started 2 empty_world) (started 2 empty_world)
             (started 2 empty_world)); try reflexivity.
    intros j _. exact tolerance_below_one. }
  split; [exact Hrun |].
  unfold main, run_bind at 1. now rewrite Hrun.
Qed.

(** C2, amended. If the CG solver reaches the cap of 1000 steps without a
    residual within the tolerance, [solver.solve] raises [NoConvergence] and
    nothing in [solve] or [run] handles it: the run ends with that exception
    in the world the assembly left, with no iteration count printed and the
    output stage not run, hence no VTK file written. *)
Theorem C2_non_convergence_ends_the_run
        {Triangulation DoFHandler SparsityPattern SparseMatrix : Type}
        (debug : bool) (dim : nat)
        (cg_iterate :
           SparseMatrix -> Vector -> Vector -> PreconditionSSOR SparseMatrix ->
           nat -> Vector)
        (cg_residual :
           SparseMatrix -> Vector -> Vector -> PreconditionSSOR SparseMatrix ->
           nat -> R)
        (patch_samples : DoFHandler -> Vector -> list (list R * list Tensor1))
        (make_grid setup_system assemble_system :
           @Step4 Triangulation DoFHandler SparsityPattern SparseMatrix ->
           Run DoFHandler
               (@Step4 Triangulation DoFHandler SparsityPattern SparseMatrix))
        s0 s1 s2 s3 (w0 w1 w2 w3 : World DoFHandler) :
  make_grid s0 (started dim w0) = (Normal s1, w1) ->
  setup_system s1 w1 = (Normal s2, w2) ->
  assemble_system s2 w2 = (Normal s3, w3) ->
  (forall j, j <= 1000 ->
     (cg_residual (system_matrix s3) (solution s3) (system_rhs s3)
                  {| ssor_matrix := system_matrix s3; ssor_omega := 1 |} j
      > 1e-12)%R) ->
  run debug dim cg_iterate cg_residual patch_samples
      make_grid setup_system assemble_system s0 w0
  = (Thrown (NoConvergence 1000
               (cg_residual (system_matrix s3) (solution s3) (system_rhs s3)
                  {| ssor_matrix := system_matrix s3; ssor_omega := 1 |} 1000)),
     w3).
Proof.
  intros H1 H2 H3 Hres.
  now apply (run_no_convergence debug dim cg_iterate cg_residual patch_samples
               make_grid setup_system assemble_system s0 s1 s2 s3 w0 w1 w2 w3).
Qed.

Lemma C2_non_convergence_ends_the_run_witness :
  run true 3 stalled_iterate stalled_residual one_patch
      run_ret run_ret run_ret blank_problem empty_world
  = (Thrown (NoConvergence 1000
               (stalled_residual tt [] []
                  {| ssor_matrix := tt; ssor_omega := 1 |} 1000)),
     started 3 empty_world).
Proof.
  apply (C2_non_convergence_ends_the_run
           true 3 stalled_iterate stalled_residual one_patch
           run_ret run_ret run_ret
           blank_problem blank_problem blank_problem blank_problem
           empty_world (started 3 empty_world) (started 3 empty_world)
           (started 3 empty_world)).
  - reflexivity.
  - reflexivity.
  - reflexivity.
  - intros j _. exact tolerance_below_one.
Defined.

(** ** C8 *)

(** C8. On patches the post-processor accepts, the output stage returns and
    its one effect is on the files: the data set goes to "solution-2d.vtk"
    when [dim] is 2 and to "solution-3d.vtk" when [dim] is 3. *)
Theorem C8_output_file_by_dimension
        {Triangulation DoFHandler SparsityPattern SparseMatrix : Type}
        (debug : bool) (dim : nat)
        (patch_samples : DoFHandler -> Vector -> list (list R * list Tensor1))
        (s : @Step4 Triangulation DoFHandler SparsityPattern SparseMatrix)
        (w : World DoFHandler) :
  Forall (patch_ok debug dim) (patch_samples (dof_handler s) (solution s)) ->
  (dim = 2 ->
   output_results debug dim patch_samples s w
   = (Normal tt,
      {| console := console w;
         files := <["solution-2d.vtk"%string := vtk_data dim patch_samples s]>
                    (files w) |}))
  /\ (dim = 3 ->
      output_results debug dim patch_samples s w
      = (Normal tt,
         {| console := console w;
            files := <["solution-3d.vtk"%string := vtk_data dim patch_samples s]>
                       (files w) |})).
Proof.
  intros Hok.
  split; intros ->; now rewrite output_results_writes.
Qed.

Lemma C8_output_file_by_dimension_witness :
  (2 = 2 ->
   output_results true 2 one_patch blank_problem empty_world
   = (Normal tt,
      {| console := [];
         files := <["solution-2d.vtk"%string := vtk_data 2 one_patch blank_problem]>
                    ∅ |}))
  /\ (2 = 3 ->
      output_results true 2 one_patch blank_problem empty_world
      = (Normal tt,
         {| console := [];
            files := <["solution-3d.vtk"%string := vtk_data 2 one_patch blank_problem]>
                       ∅ |})).
Proof.
  apply (C8_output_file_by_dimension true 2 one_patch blank_problem empty_world).
  constructor; [apply sample_patch_ok | constructor].
Defined.

(** * Further properties of the code *)

(** ** The post-processor at its edges *)

Lemma for_loop_app {St : Type} (body : nat -> St -> outcome St) (a b : nat) :
  forall i s,
    for_loop i (a + b) body s = for_loop i a body s ≫= for_loop (i + a) b body.
Proof.
  induction a as [| a IH]; intros i s; simpl.
  - now rewrite Nat.add_0_r.
  - destruct (body i s) as [s' | e | |]; simpl; try reflexivity.
    rewrite IH. now replace (S i + a) with (i + S a) by lia.
Qed.

(** X1. In a debug build each of the three size assertions is live: a
    gradient vector or an output buffer whose size differs from the number
    of points, or a first output row that does not have [dim + 2]
    components, makes the call raise [ExcInternalError]. *)
Theorem X1_debug_size_assertions
        (dim : nat) (uh : list R) (duh : list Tensor1)
        (dduh : list Tensor2) (normals points : list Point)
        (computed_quantities : list (list R)) :
  length duh <> static_cast_unsigned_int (length uh)
  \/ length computed_quantities <> static_cast_unsigned_int (length uh)
  \/ (exists row0 rest,
        computed_quantities = row0 :: rest /\ length row0 <> dim + 2) ->
  Postprocessor.compute_derived_quantities_scalar
    true dim uh duh dduh normals points computed_quantities
  = Thrown ExcInternalError.
Proof.
  intros H.
  unfold Postprocessor.compute_derived_quantities_scalar, Assert. cbv zeta.
  rewrite !bind_Normal.
  destruct (Nat.eqb_spec (length duh) (static_cast_unsigned_int (length uh)))
    as [Hd | Hd]; [| reflexivity].
  rewrite bind_Normal.
  destruct (Nat.eqb_spec (length computed_quantities)
                         (static_cast_unsigned_int (length uh)))
    as [Hc | Hc]; [| reflexivity].
  destruct H as [H | [H | (row0 & rest & -> & Hrow)]]; try contradiction.
  unfold index. simpl.
  destruct (Nat.eqb_spec (length row0) (dim + 2)); [contradiction | reflexivity].
Qed.

Lemma X1_debug_size_assertions_witness :
  Postprocessor.compute_derived_quantities_scalar
    true 2 sample_uh sample_duh [] [] [] [[0%R; 0%R; 0%R]]
  = Thrown ExcInternalError.
Proof.
  apply (X1_debug_size_assertions 2 sample_uh sample_duh [] [] []
                                  [[0%R; 0%R; 0%R]]).
  right. right. exists [0%R; 0%R; 0%R], []. split; [reflexivity |].
  simpl. lia.
Defined.

(** X2. With no point at all, a release build returns the output buffer as
    it was, whatever the other arguments are; a debug build given empty
    vectors does not return: its third assertion reads the first row of an
    empty buffer. *)
Theorem X2_no_points
        (dim : nat) (duh : list Tensor1) (dduh : list Tensor2)
        (normals points : list Point) (computed_quantities : list (list R)) :
  Postprocessor.compute_derived_quantities_scalar
    false dim [] duh dduh normals points computed_quantities
  = Normal computed_quantities
  /\ Postprocessor.compute_derived_quantities_scalar
       true dim [] [] dduh normals points []
     = OutOfBounds.
Proof. split; reflexivity. Qed.

Lemma zip_rows_length (n : nat) (uh : list R) (duh : list Tensor1) :
  n <= length uh -> n <= length duh ->
  length (zip_with derived_quantities (take n uh) (take n duh)) = n.
Proof. intros Hu Hg. rewrite length_zip_with, !length_take. lia. Qed.

Lemma filled_rows_closed_form (uh : list R) (duh : list Tensor1)
      (cq : list (list R)) (n : nat) :
  n <= length uh -> n <= length duh -> n <= length cq ->
  fill_range (point_row uh duh) 0 n cq
  = zip_with derived_quantities (take n uh) (take n duh) ++ drop n cq.
Proof.
  intros Hu Hg Hc. apply list_eq. intros j.
  destruct (decide (j < n)) as [Hj | Hj].
  - rewrite fill_range_lookup_in by lia.
    rewrite lookup_app_l by (rewrite zip_rows_length; lia).
    destruct (lookup_lt_is_Some_2 uh j) as [u Hu']; [lia |].
    destruct (lookup_lt_is_Some_2 duh j) as [g Hg']; [lia |].
    unfold point_row.
    rewrite (nth_lookup_Some uh j 0%R u Hu'), (nth_lookup_Some duh j [] g Hg').
    rewrite lookup_zip_with, !lookup_take_lt by lia.
    rewrite Hu'. simpl. now rewrite Hg'.
  - rewrite fill_range_lookup_out by lia.
    rewrite lookup_app_r by (rewrite zip_rows_length; lia).
    rewrite zip_rows_length by lia. rewrite lookup_drop. f_equal. lia.
Qed.

(** X3. A release build checks no size: when the gradient vector and the
    output buffer are at least as long as the number of points [n], the call
    returns the derived quantities of the first [n] points followed by the
    rows of the buffer from [n] on, untouched. *)
Theorem X3_release_leaves_further_rows
        (dim : nat) (uh : list R) (duh : list Tensor1)
        (dduh : list Tensor2) (normals points : list Point)
        (computed_quantities : list (list R)) :
  static_cast_unsigned_int (length uh) <= length duh ->
  static_cast_unsigned_int (length uh) <= length computed_quantities ->
  Forall (fun row => length row = dim + 2) computed_quantities ->
  Forall (fun g : Tensor1 => length g = dim) duh ->
  Postprocessor.compute_derived_quantities_scalar
    false dim uh duh dduh normals points computed_quantities
  = Normal (zip_with derived_quantities
                     (take (static_cast_unsigned_int (length uh)) uh)
                     (take (static_cast_unsigned_int (length uh)) duh)
              ++ drop (static_cast_unsigned_int (length uh)) computed_quantities).
Proof.
  intros Hg Hc Hrows Hten.
  pose proof (static_cast_unsigned_int_le (length uh)) as Hn.
  unfold Postprocessor.compute_derived_quantities_scalar. cbv zeta.
  unfold Assert. rewrite !bind_Normal.
  rewrite (points_loop_returns false dim uh duh Hten);
    trivial; try lia; try discriminate.
  now rewrite filled_rows_closed_form.
Qed.

Lemma X3_release_leaves_further_rows_witness :
  Postprocessor.compute_derived_quantities_scalar
    false 2 sample_uh (sample_duh ++ [[1%R; 1%R]]) [] [] []
    (sample_rows ++ [[7%R; 7%R; 7%R; 7%R]])
  = Normal (zip_with derived_quantities
                     (take (static_cast_unsigned_int (length sample_uh)) sample_uh)
                     (take (static_cast_unsigned_int (length sample_uh))
                           (sample_duh ++ [[1%R; 1%R]]))
              ++ drop (static_cast_unsigned_int (length sample_uh))
                      (sample_rows ++ [[7%R; 7%R; 7%R; 7%R]])).
Proof.
  apply (X3_release_leaves_further_rows
           2 sample_uh (sample_duh ++ [[1%R; 1%R]]) [] [] []
           (sample_rows ++ [[7%R; 7%R; 7%R; 7%R]])).
  - vm_compute. lia.
  - vm_compute. lia.
  - repeat constructor.
  - repeat constructor.
Defined.

Lemma filled_rows_well_shaped (dim : nat) (uh : list R) (duh : list Tensor1)
      (cq : list (list R)) :
  well_shaped dim uh duh cq ->
  well_shaped dim uh duh
              (fill_range (point_row uh duh) 0
                          (static_cast_unsigned_int (length uh)) cq).
Proof.
  intros [Hduh Hrows Hrow Hten].
  pose proof (static_cast_unsigned_int_le (length uh)) as Hn.
  split; trivial.
  - now rewrite fill_range_length.
  - apply Forall_lookup. intros j row Hj.
    destruct (decide (j < static_cast_unsigned_int (length uh))) as [Hlt | Hge].
    + rewrite fill_range_lookup_in in Hj by lia. injection Hj as <-.
      apply (point_row_length dim uh duh Hten). lia.
    + rewrite fill_range_lookup_out in Hj by lia.
      exact (proj1 (Forall_lookup _ _) Hrow j row Hj).
Qed.

(** X4. The call is idempotent: run again on the buffer it returned, with
    the same values and gradients, it returns that buffer unchanged. *)
Theorem X4_second_call_changes_nothing
        (debug : bool) (dim : nat) (uh : list R) (duh : list Tensor1)
        (dduh : list Tensor2) (normals points : list Point)
        (computed_quantities out : list (list R)) :
  well_shaped dim uh duh computed_quantities ->
  Postprocessor.compute_derived_quantities_scalar
    debug dim uh duh dduh normals points computed_quantities = Normal out ->
  Postprocessor.compute_derived_quantities_scalar
    debug dim uh duh dduh normals points out = Normal out.
Proof.
  intros Hws Hout.
  destruct (decide (static_cast_unsigned_int (length uh) = 0)) as [Hz | Hnz].
  - pose proof Hws as [_ Hrows _ _]. rewrite Hz in Hrows.
    destruct computed_quantities; [| discriminate].
    destruct debug.
    + unfold Postprocessor.compute_derived_quantities_scalar in Hout.
      rewrite Hz in Hout. destruct duh; discriminate.
    + unfold Postprocessor.compute_derived_quantities_scalar in Hout.
      rewrite Hz in Hout. simpl in Hout. injection Hout as <-.
      unfold Postprocessor.compute_derived_quantities_scalar.
      now rewrite Hz.
  - pose proof (compute_Normal_inv debug dim uh duh dduh normals points
                                   computed_quantities out Hws Hnz Hout) as ->.
    rewrite <- Hout.
    apply compute_buffer_irrelevant; [| exact Hws].
    now apply filled_rows_well_shaped.
Qed.

Lemma X4_second_call_changes_nothing_witness :
  Postprocessor.compute_derived_quantities_scalar
    true 2 sample_uh sample_duh [] [] [] [[3%R; 4%R; (-2)%R; 12%R]]
  = Normal [[3%R; 4%R; (-2)%R; 12%R]].
Proof.
  apply (X4_second_call_changes_nothing
           true 2 sample_uh sample_duh [] [] [] sample_rows).
  - exact sample_well_shaped.
  - apply sample_output.
Defined.

(** ** What the returned rows satisfy *)

(** A row the call returned, with the inputs it came from. *)
Lemma returned_row (debug : bool) (dim : nat) (uh : list R) (duh : list Tensor1)
      (dduh : list Tensor2) (normals points : list Point)
      (cq out : list (list R)) (q : nat) :
  well_shaped dim uh duh cq ->
  Postprocessor.compute_derived_quantities_scalar
    debug dim uh duh dduh normals points cq = Normal out ->
  q < static_cast_unsigned_int (length uh) ->
  exists u g,
    uh !! q = Some u /\ duh !! q = Some g /\ length g = dim /\
    out !! q = Some (derived_quantities u g) /\
    derived_quantities u g !! dim = Some (sMin u g) /\
    derived_quantities u g !! (dim + 1) = Some (sMax u g) /\
    take dim (derived_quantities u g) = g.
Proof.
  intros Hws Hout Hq.
  apply compute_Normal_inv in Hout; [| exact Hws | lia]. subst out.
  destruct (filled_row dim uh duh cq q Hws Hq) as (u & g & Hu & Hg & Hlen & Hrow).
  destruct (derived_quantities_lookup u g) as (Htake & Hmin & Hmax).
  rewrite Hlen in Htake, Hmin, Hmax.
  exists u, g. repeat split; trivial.
Qed.

Lemma norm2_square_nonneg (g : Tensor1) : (0 <= norm2_square g)%R.
Proof.
  induction g as [| x g IH]; simpl; [lra |]. nra.
Qed.

Lemma norm2_square_le_norm1_square (g : Tensor1) :
  (norm2_square g <= norm1 g * norm1 g)%R.
Proof.
  induction g as [| x g IH]; simpl; [lra |].
  pose proof (norm1_nonneg g) as H1. pose proof (Rabs_pos x) as H2.
  assert (Hx : (x * x = Rabs x * Rabs x)%R).
  { unfold Rabs. destruct (Rcase_abs x); lra. }
  nra.
Qed.




(** X6. Where the value [uh[q]] is not positive, as on the boundary where it
    is 0, the returned sMin is not positive either: the square root is then
    at most the Euclidean norm of the gradient, which the sum of the
    |g[k]| dominates. *)
Theorem X6_sMin_not_positive_where_value_is_not
        (debug : bool) (dim : nat) (uh : list R) (duh : list Tensor1)
        (dduh : list Tensor2) (normals points : list Point)
        (computed_quantities out : list (list R)) (q : nat) (u : R) :
  well_shaped dim uh duh computed_quantities ->
  Postprocessor.compute_derived_quantities_scalar
    debug dim uh duh dduh normals points computed_quantities = Normal out ->
  q < static_cast_unsigned_int (length uh) ->
  uh !! q = Some u ->
  (u <= 0)%R ->
  exists row smin,
    out !! q = Some row /\ row !! dim = Some smin /\ (smin <= 0)%R.
Proof.
  intros Hws Hout Hq Hu Hneg.
  destruct (returned_row debug dim uh duh dduh normals points
                         computed_quantities out q Hws Hout Hq)
    as (u' & g & Hu' & Hg & Hlen & Hrow & Hmin & Hmax & Htake).
  assert (u' = u) as -> by congruence.
  exists (derived_quantities u g), (sMin u g). repeat split; trivial.
  unfold sMin.
  pose proof (norm1_nonneg g) as H1.
  pose proof (norm2_square_le_norm1_square g) as H2.
  assert (Hle : (Rmax (radicand u g) 0 <= norm1 g * norm1 g)%R).
  { apply Rmax_lub; [unfold radicand; lra | nra]. }
  apply sqrt_le_1_alt in Hle. rewrite sqrt_square in Hle by exact H1. lra.
Qed.

Lemma X6_sMin_not_positive_where_value_is_not_witness :
  exists row smin,
    [[3%R; 4%R; (-2)%R; 12%R]] !! 0 = Some row /\ row !! 2 = Some smin /\
    (smin <= 0)%R.
Proof.
  apply (X6_sMin_not_positive_where_value_is_not
           true 2 sample_uh sample_duh [] [] [] sample_rows
           [[3%R; 4%R; (-2)%R; 12%R]] 0 0%R).
  - exact sample_well_shaped.
  - apply sample_output.
  - vm_compute. lia.
  - reflexivity.
  - lra.
Defined.



Lemma norms_of_opposite (g : Tensor1) :
  norm2_square (opposite g) = norm2_square g /\ norm1 (opposite g) = norm1 g.
Proof.
  induction g as [| x g [IH2 IH1]]; [split; reflexivity |].
  change (norm2_square (opposite (x :: g)))
    with (- x * - x + norm2_square (opposite g))%R.
  change (norm1 (opposite (x :: g)))
    with (Rabs (- x) + norm1 (opposite g))%R.
  rewrite IH2, IH1, Rabs_Ropp. simpl. split; lra.
Qed.

Lemma nth_opposite (duh : list Tensor1) (j : nat) :
  nth j (opposite <$> duh) [] = opposite (nth j duh []).
Proof.
  revert j. induction duh as [| g duh IH]; intros [| j]; try reflexivity.
  rewrite fmap_cons. simpl. apply IH.
Qed.

Lemma split_at_length {A : Type} (n : nat) (l k : list A) :
  length l = n -> take n (l ++ k) = l /\ drop n (l ++ k) = k.
Proof. intros <-. split; [apply take_app_length | apply drop_app_length]. Qed.

Lemma derived_quantities_of_opposite (u : R) (g : Tensor1) :
  derived_quantities u (opposite g) = opposite g ++ [sMin u g; sMax u g].
Proof.
  unfold derived_quantities, sMin, sMax, radicand.
  destruct (norms_of_opposite g) as [-> ->]. reflexivity.
Qed.

Lemma returned_radicands (dim : nat) (uh : list R) (duh : list Tensor1)
      (dduh : list Tensor2) (normals points : list Point)
      (cq out : list (list R)) :
  well_shaped dim uh duh cq ->
  Postprocessor.compute_derived_quantities_scalar
    true dim uh duh dduh normals points cq = Normal out ->
  forall j, j < static_cast_unsigned_int (length uh) ->
            (0 <= radicand (nth j uh 0%R) (nth j duh []))%R.
Proof.
  intros Hws Hout j Hj.
  destruct (Rlt_dec (radicand (nth j uh 0%R) (nth j duh [])) 0) as [Hneg | ?];
    [| lra].
  rewrite (compute_raises dim uh duh dduh normals points cq j Hws Hj Hneg) in Hout.
  discriminate.
Qed.

(** X8. The two estimates do not see the orientation of the gradient: the
    call on the opposite gradients returns, wherever the call on the
    gradients does, rows with the opposite first [dim] components and the
    same sMin and sMax. *)
Theorem X8_opposite_gradients_same_estimates
        (debug : bool) (dim : nat) (uh : list R) (duh : list Tensor1)
        (dduh : list Tensor2) (normals points : list Point)
        (computed_quantities out : list (list R)) :
  well_shaped dim uh duh computed_quantities ->
  Postprocessor.compute_derived_quantities_scalar
    debug dim uh duh dduh normals points computed_quantities = Normal out ->
  exists out',
    Postprocessor.compute_derived_quantities_scalar
      debug dim uh (opposite <$> duh) dduh normals points computed_quantities
    = Normal out' /\
    length out' = length out /\
    forall q row', out' !! q = Some row' ->
      exists row, out !! q = Some row /\
                  take dim row' = opposite (take dim row) /\
                  drop dim row' = drop dim row.
Proof.
  intros Hws Hout.
  pose proof Hws as [Hduh Hrows Hrow Hten].
  pose proof (static_cast_unsigned_int_le (length uh)) as Hn.
  assert (Hws' : well_shaped dim uh (opposite <$> duh) computed_quantities).
  { split; trivial.
    - now rewrite length_fmap.
    - apply Forall_fmap. eapply Forall_impl; [exact Hten |].
      intros g Hg. simpl. unfold opposite. now rewrite length_fmap. }
  destruct (decide (static_cast_unsigned_int (length uh) = 0)) as [Hz | Hnz].
  { rewrite Hz in Hrows. destruct computed_quantities; [| discriminate].
    unfold Postprocessor.compute_derived_quantities_scalar in *.
    rewrite Hz in *. rewrite length_fmap.
    destruct debug.
    - destruct duh; discriminate.
    - simpl in *. exists []. injection Hout as <-.
      repeat split. intros q row' Hq. discriminate. }
  assert (Hne : computed_quantities <> []).
  { intros ->. simpl in Hrows. lia. }
  pose proof (compute_Normal_inv debug dim uh duh dduh normals points
                                 computed_quantities out Hws Hnz Hout) as Heq.
  eexists. split; [| split].
  - apply compute_returns; [exact Hws' |]. intros ->. split; [exact Hne |].
    intros j Hj.
    pose proof (returned_radicands dim uh duh dduh normals points
                                   computed_quantities out Hws Hout j Hj) as Hrad.
    rewrite nth_opposite.
    unfold radicand in *.
    now destruct (norms_of_opposite (nth j duh [])) as [-> _].
  - subst out. now rewrite !fill_range_length.
  - intros q row' Hq'. subst out.
    destruct (decide (q < static_cast_unsigned_int (length uh))) as [Hq | Hq].
    + rewrite fill_range_lookup_in in Hq' by lia. injection Hq' as <-.
      rewrite fill_range_lookup_in by lia.
      eexists. split; [reflexivity |].
      unfold point_row.
      rewrite nth_opposite.
      rewrite derived_quantities_of_opposite. unfold derived_quantities.
      assert (Hlen : length (nth q duh []) = dim).
      { destruct (lookup_lt_is_Some_2 duh q) as [g Hg]; [lia |].
        rewrite (nth_lookup_Some duh q [] g Hg).
        exact (proj1 (Forall_lookup _ _) Hten q g Hg). }
      assert (Hlen' : length (opposite (nth q duh [])) = dim).
      { unfold opposite. now rewrite length_fmap. }
      destruct (split_at_length dim (opposite (nth q duh []))
                                [sMin (nth q uh 0%R) (nth q duh []);
                                 sMax (nth q uh 0%R) (nth q duh [])] Hlen')
        as [-> ->].
      destruct (split_at_length dim (nth q duh [])
                                [sMin (nth q uh 0%R) (nth q duh []);
                                 sMax (nth q uh 0%R) (nth q duh [])] Hlen)
        as [-> ->].
      split; reflexivity.
    + rewrite fill_range_lookup_out in Hq' by lia.
      apply lookup_lt_Some in Hq'. lia.
Qed.

Lemma X8_opposite_gradients_same_estimates_witness :
  exists out',
    Postprocessor.compute_derived_quantities_scalar
      true 2 sample_uh (opposite <$> sample_duh) [] [] [] sample_rows
    = Normal out' /\
    length out' = length [[3%R; 4%R; (-2)%R; 12%R]] /\
    forall q row', out' !! q = Some row' ->
      exists row, [[3%R; 4%R; (-2)%R; 12%R]] !! q = Some row /\
                  take 2 row' = opposite (take 2 row) /\
                  drop 2 row' = drop 2 row.
Proof.
  apply (X8_opposite_gradients_same_estimates
           true 2 sample_uh sample_duh [] [] [] sample_rows).
  - exact sample_well_shaped.
  - apply sample_output.
Defined.

(** ** Arguments the assertions would have refused *)

Lemma index_None {A : Type} (v : list A) (i : nat) :
  length v <= i -> index v i = OutOfBounds.
Proof. intros H. unfold index. now rewrite lookup_ge_None_2. Qed.


Lemma for_loop_head {St : Type} (body : nat -> St -> outcome St)
      (i c : nat) (s : St) :
  for_loop i (S c) body s = body i s ≫= for_loop (S i) c body.
Proof. reflexivity. Qed.

Lemma process_point_no_gradient (debug : bool) (dim : nat) (uh : list R)
      (duh : list Tensor1) (q : nat) (cq : list (list R)) :
  length duh <= q ->
  Postprocessor.process_point debug dim uh duh q cq = OutOfBounds.
Proof.
  intros H. unfold Postprocessor.process_point.
  rewrite (index_None duh q H). reflexivity.
Qed.

(** X9. A release build does not notice a gradient vector shorter than the
    value vector: it fills the rows of the points that have a gradient and
    then reads past the end of the gradient vector. *)
Theorem X9_release_reads_past_short_gradients
        (dim : nat) (uh : list R) (duh : list Tensor1)
        (dduh : list Tensor2) (normals points : list Point)
        (computed_quantities : list (list R)) :
  length duh < static_cast_unsigned_int (length uh) ->
  length duh <= length computed_quantities ->
  Forall (fun row => length row = dim + 2) computed_quantities ->
  Forall (fun g : Tensor1 => length g = dim) duh ->
  Postprocessor.compute_derived_quantities_scalar
    false dim uh duh dduh normals points computed_quantities
  = OutOfBounds.
Proof.
  intros Hshort Hc Hrows Hten.
  pose proof (static_cast_unsigned_int_le (length uh)) as Hn.
  unfold Postprocessor.compute_derived_quantities_scalar. cbv zeta.
  unfold Assert. rewrite !bind_Normal.
  replace (static_cast_unsigned_int (length uh))
    with (length duh + S (static_cast_unsigned_int (length uh) - S (length duh)))
    by lia.
  rewrite for_loop_app.
  rewrite (points_loop_returns false dim uh duh Hten);
    trivial; try lia; try discriminate.
  rewrite bind_Normal, for_loop_head.
  now rewrite process_point_no_gradient by lia.
Qed.

Lemma X9_release_reads_past_short_gradients_witness :
  Postprocessor.compute_derived_quantities_scalar
    false 2 [0%R; 0%R] sample_duh [] [] []
    [[0%R; 0%R; 0%R; 0%R]; [0%R; 0%R; 0%R; 0%R]]
  = OutOfBounds.
Proof.
  apply (X9_release_reads_past_short_gradients
           2 [0%R; 0%R] sample_duh [] [] []
           [[0%R; 0%R; 0%R; 0%R]; [0%R; 0%R; 0%R; 0%R]]).
  - vm_compute. lia.
  - vm_compute. lia.
  - repeat constructor.
  - repeat constructor.
Defined.






(** ** The solve and the output stage *)

(** X11. [solve] returns normally only with a converged solution: some step
    [k <= 1000] is the first whose residual norm is at most 1e-12, the
    object comes back with iterate [k] as its solution and nothing else
    changed, one line with the count [k] is printed and no file is
    touched. *)
Theorem X11_solve_returns_only_converged
        {Triangulation DoFHandler SparsityPattern SparseMatrix : Type}
        (cg_iterate :
           SparseMatrix -> Vector -> Vector -> PreconditionSSOR SparseMatrix ->
           nat -> Vector)
        (cg_residual :
           SparseMatrix -> Vector -> Vector -> PreconditionSSOR SparseMatrix ->
           nat -> R)
        (s s' : @Step4 Triangulation DoFHandler SparsityPattern SparseMatrix)
        (w w' : World DoFHandler) :
  solve cg_iterate cg_residual s w = (Normal s', w') ->
  exists k,
    k <= 1000 /\
    (residuals cg_residual s k <= 1e-12)%R /\
    (forall j, j < k -> (residuals cg_residual s j > 1e-12)%R) /\
    solution s' = iterates cg_iterate s k /\
    triangulation s' = triangulation s /\
    dof_handler s' = dof_handler s /\
    sparsity_pattern s' = sparsity_pattern s /\
    system_matrix s' = system_matrix s /\
    system_rhs s' = system_rhs s /\
    console w' = console w ++
                 ["   " +:+ pretty k
                  +:+ " CG iterations needed to obtain convergence."] /\
    files w' = files w.
Proof.
  intros H.
  destruct (first_within (residuals cg_residual s) 1e-12 1000)
    as [(k & Hk & Hres & Hbefore) | Hnone].
  - rewrite (solve_success cg_iterate cg_residual s w k Hk Hres Hbefore) in H.
    injection H as <- <-. exists k. repeat split; trivial.
  - rewrite (solve_failure cg_iterate cg_residual s w Hnone) in H.
    discriminate.
Qed.

Lemma X11_solve_returns_only_converged_witness :
  exists k,
    k <= 1000 /\
    (residuals settled_residual blank_problem k <= 1e-12)%R /\
    (forall j, j < k -> (residuals settled_residual blank_problem j > 1e-12)%R) /\
    solution blank_problem = iterates stalled_iterate blank_problem k /\
    triangulation blank_problem = triangulation blank_problem /\
    dof_handler blank_problem = dof_handler blank_problem /\
    sparsity_pattern blank_problem = sparsity_pattern blank_problem /\
    system_matrix blank_problem = system_matrix blank_problem /\
    system_rhs blank_problem = system_rhs blank_problem /\
    console settled_world
    = console empty_world ++
      ["   " +:+ pretty k
       +:+ " CG iterations needed to obtain convergence."] /\
    files settled_world
    = files empty_world.
Proof.
  apply (X11_solve_returns_only_converged
           stalled_iterate settled_residual blank_problem blank_problem
           empty_world
           settled_world).
  apply (solve_success stalled_iterate settled_residual blank_problem
                       empty_world 0).
  - lia.
  - unfold residuals, settled_residual.
    pose proof tolerance_below_one. lra.
  - intros j Hj. lia.
Defined.

Lemma build_patches_keeps_what_it_was_given
      {DoFHandler : Type} (debug : bool) (dim : nat)
      (patch_samples : DoFHandler -> Vector -> list (list R * list Tensor1))
      (data_out data : DataOut DoFHandler) :
  build_patches debug dim patch_samples data_out = Normal data ->
  attached_dof_handler data = attached_dof_handler data_out /\
  named_vectors data = named_vectors data_out /\
  postprocessed_vectors data = postprocessed_vectors data_out /\
  derived_names data = derived_names data_out /\
  derived_interpretation data = derived_interpretation data_out.
Proof.
  unfold build_patches. intros H.
  destruct (mapM _ (postprocessed_vectors data_out)) as [rows | | |];
    try discriminate.
  simpl in H. injection H as <-. repeat split.
Qed.

(** X12. When the output stage returns, the console is as before, the file
    of the dimension's name holds a data set with the solution of the object
    under the name "solution" and the post-processor's names and
    interpretations, whatever file had that name before, and every other
    file is as it was. *)
Theorem X12_output_stage_touches_one_file
        {Triangulation DoFHandler SparsityPattern SparseMatrix : Type}
        (debug : bool) (dim : nat)
        (patch_samples : DoFHandler -> Vector -> list (list R * list Tensor1))
        (s : @Step4 Triangulation DoFHandler SparsityPattern SparseMatrix)
        (w w' : World DoFHandler) :
  output_results debug dim patch_samples s w = (Normal tt, w') ->
  console w' = console w
  /\ (exists data,
        files w' !! output_file_name dim = Some data /\
        named_vectors data = [(solution s, "solution"%string)] /\
        derived_names data = Postprocessor.get_names dim /\
        derived_interpretation data
        = Postprocessor.get_data_component_interpretation dim)
  /\ (forall name, name <> output_file_name dim ->
                   files w' !! name = files w !! name).
Proof.
  unfold output_results. cbv zeta. unfold run_bind, lift, write_file.
  intros H.
  destruct (build_patches debug dim patch_samples _) as [data | | |] eqn:Hbuild;
    try discriminate.
  injection H as <-. cbn [console files].
  apply build_patches_keeps_what_it_was_given in Hbuild
    as (_ & Hnamed & _ & Hnames & Hinterp).
  split; [reflexivity |]. split.
  - exists data. split; [apply lookup_insert_eq |]. repeat split; assumption.
  - intros name Hname. now apply lookup_insert_ne.
Qed.

Lemma X12_output_stage_touches_one_file_witness :
  console {| console := [];
             files := <["solution-2d.vtk"%string := vtk_data 2 one_patch blank_problem]>
                        (∅ : gmap string (DataOut unit)) |}
  = console empty_world
  /\ (exists data,
        files {| console := [];
                 files := <["solution-2d.vtk"%string
                            := vtk_data 2 one_patch blank_problem]>
                            (∅ : gmap string (DataOut unit)) |}
        !! output_file_name 2 = Some data /\
        named_vectors data = [(solution blank_problem, "solution"%string)] /\
        derived_names data = Postprocessor.get_names 2 /\
        derived_interpretation data
        = Postprocessor.get_data_component_interpretation 2)
  /\ (forall name, name <> output_file_name 2 ->
                   files {| console := [];
                            files := <["solution-2d.vtk"%string
                                       := vtk_data 2 one_patch blank_problem]>
                                       (∅ : gmap string (DataOut unit)) |}
                   !! name = files empty_world !! name).
Proof.
  apply (X12_output_stage_touches_one_file true 2 one_patch blank_problem
                                            empty_world).
  apply (output_results_writes true 2 one_patch blank_problem empty_world).
  constructor; [apply sample_patch_ok | constructor].
Defined.

(** X13. The name of the file distinguishes dimension 2 from every other
    one: on patches the post-processor accepts, the output stage of a
    dimension other than 2, dimension 1 included, writes
    "solution-3d.vtk". *)
Theorem X13_dimensions_other_than_two_share_a_file
        {Triangulation DoFHandler SparsityPattern SparseMatrix : Type}
        (debug : bool) (dim : nat)
        (patch_samples : DoFHandler -> Vector -> list (list R * list Tensor1))
        (s : @Step4 Triangulation DoFHandler SparsityPattern SparseMatrix)
        (w : World DoFHandler) :
  dim <> 2 ->
  Forall (patch_ok debug dim) (patch_samples (dof_handler s) (solution s)) ->
  output_results debug dim patch_samples s w
  = (Normal tt,
     {| console := console w;
        files := <["solution-3d.vtk"%string := vtk_data dim patch_samples s]>
                   (files w) |}).
Proof.
  intros Hdim Hok. rewrite output_results_writes by exact Hok.
  unfold output_file_name.
  destruct (Nat.eqb_spec dim 2); [contradiction | reflexivity].
Qed.

Lemma X13_dimensions_other_than_two_share_a_file_witness :
  output_results false 1 no_patches blank_problem empty_world
  = (Normal tt,
     {| console := console empty_world;
        files := <["solution-3d.vtk"%string := vtk_data 1 no_patches blank_problem]>
                   (files empty_world) |}).
Proof.
  apply (X13_dimensions_other_than_two_share_a_file
           false 1 no_patches blank_problem empty_world).
  - lia.
  - constructor.
Defined.

Lemma mapM_Thrown {A B : Type} (f : A -> outcome B) (e : Exception)
      (l : list A) :
  Forall (fun x => (exists y, f x = Normal y) \/ f x = Thrown e) l ->
  Exists (fun x => f x = Thrown e) l ->
  mapM f l = Thrown e.
Proof.
  induction 1 as [| x l Hx _ IH]; intros Hex.
  - inversion Hex.
  - simpl. destruct Hx as [[y Hy] | Hx].
    + rewrite Hy, bind_Normal.
      apply Exists_cons in Hex as [Hex | Hex]; [congruence |].
      now rewrite (IH Hex).
    + now rewrite Hx.
Qed.

Lemma postprocess_patch_decided (dim : nat) (sample : list R * list Tensor1) :
  patch_shaped dim sample ->
  (has_negative_radicand sample ->
   postprocess_patch true dim (dim + 2) sample
   = Thrown (ExcMessage "Sqrt of negative!"))
  /\ ((exists rows, postprocess_patch true dim (dim + 2) sample = Normal rows)
      \/ postprocess_patch true dim (dim + 2) sample
         = Thrown (ExcMessage "Sqrt of negative!")).
Proof.
  destruct sample as [uh duh]. intros [Hsz Hsmall Hten Hne]. simpl in *.
  pose proof (static_cast_unsigned_int_small _ Hsmall) as Hn.
  assert (Hws : well_shaped dim uh duh
                  (replicate (length uh) (replicate (dim + 2) 0%R))).
  { split; rewrite ?Hn; trivial.
    - apply length_replicate.
    - apply Forall_replicate. apply length_replicate. }
  unfold postprocess_patch. split.
  - intros (q & u & g & Hu & Hg & Hneg). simpl in *.
    apply (compute_raises dim uh duh [] [] [] _ q Hws).
    + rewrite Hn. now apply lookup_lt_Some in Hu.
    + now rewrite (nth_lookup_Some uh q 0%R u Hu), (nth_lookup_Some duh q [] g Hg).
  - destruct (radicands_decided uh duh (static_cast_unsigned_int (length uh)))
      as [Hrad | (j & Hj & Hneg)].
    + left. eexists. apply compute_returns; [exact Hws |].
      intros _. split; [| exact Hrad].
      destruct uh; [congruence | discriminate].
    + right. now apply (compute_raises dim uh duh [] [] [] _ j Hws).
Qed.

(** X14. In a debug build the output stage does not survive a negative
    radicand: when some patch of the solution has a point whose radicand is
    negative, the stage ends with the message of the post-processor's
    assertion before the file is opened, and the world is as it was. *)
Theorem X14_negative_radicand_stops_the_output
        {Triangulation DoFHandler SparsityPattern SparseMatrix : Type}
        (dim : nat)
        (patch_samples : DoFHandler -> Vector -> list (list R * list Tensor1))
        (s : @Step4 Triangulation DoFHandler SparsityPattern SparseMatrix)
        (w : World DoFHandler) :
  Forall (patch_shaped dim) (patch_samples (dof_handler s) (solution s)) ->
  Exists has_negative_radicand (patch_samples (dof_handler s) (solution s)) ->
  output_results true dim patch_samples s w
  = (Thrown (ExcMessage "Sqrt of negative!"), w).
Proof.
  intros Hshaped Hneg.
  unfold output_results. cbv zeta. unfold run_bind, lift, build_patches.
  cbn [attached_dof_handler postprocessed_vectors derived_names
       named_vectors derived_interpretation].
  rewrite get_names_length. cbn [mapM].
  rewrite (mapM_Thrown _ (ExcMessage "Sqrt of negative!")); [reflexivity | |].
  - eapply Forall_impl; [exact Hshaped |]. intros sample Hs.
    destruct (postprocess_patch_decided dim sample Hs) as [_ [[rows Hr] | Hr]].
    + left. now exists rows.
    + now right.
  - apply Exists_exists in Hneg as (sample & Hin & Hs).
    apply Exists_exists. exists sample. split; [exact Hin |].
    apply (proj1 (Forall_forall _ _) Hshaped) in Hin.
    now apply (proj1 (postprocess_patch_decided dim sample Hin)).
Qed.

Lemma X14_negative_radicand_stops_the_output_witness :
  output_results true 1 negative_patch blank_problem empty_world
  = (Thrown (ExcMessage "Sqrt of negative!"), empty_world).
Proof.
  apply (X14_negative_radicand_stops_the_output
           1 negative_patch blank_problem empty_world).
  - repeat constructor; simpl; discriminate.
  - apply Exists_cons_tl. apply Exists_cons_hd.
    exists 0, (-1)%R, [1%R]. repeat split.
    unfold radicand, norm2_square. simpl. lra.
Defined.

(** ** Loops that accumulate *)

Lemma sum_upto_S (n : nat) (f : nat -> R) :
  sum_upto (S n) f = (sum_upto n f + f n)%R.
Proof.
  unfold sum_upto. rewrite seq_S, fold_right_app. simpl.
  generalize (seq 0 n) as l. induction l as [| x l IH]; simpl; lra.
Qed.

Lemma sum_upto_ext (n : nat) (f g : nat -> R) :
  (forall k, k < n -> f k = g k) -> sum_upto n f = sum_upto n g.
Proof.
  induction n as [| n IH]; intros H; [reflexivity |].
  rewrite !sum_upto_S, IH, H by (intros; try apply H; lia). reflexivity.
Qed.

Lemma sum_upto_zero (n : nat) : sum_upto n (fun _ => 0%R) = 0%R.
Proof. induction n as [| n IH]; [reflexivity |]. rewrite sum_upto_S, IH. lra. Qed.

(** The sum of a function that vanishes except at [k]. *)
Lemma sum_upto_single (n k : nat) (x : R) :
  sum_upto n (fun j => if decide (j = k) then x else 0%R)
  = if decide (k < n) then x else 0%R.
Proof.
  induction n as [| n IH]; [reflexivity |].
  rewrite sum_upto_S, IH.
  destruct (decide (k < n)), (decide (n = k)), (decide (k < S n)); lra || lia.
Qed.

Lemma for_loop_snoc {St : Type} (body : nat -> St -> outcome St)
      (c : nat) (s : St) :
  for_loop 0 (S c) body s = for_loop 0 c body s ≫= body c.
Proof.
  replace (S c) with (c + 1) by lia. rewrite for_loop_app.
  destruct (for_loop 0 c body s) as [s' | | |]; try reflexivity.
  simpl. destruct (body c s'); reflexivity.
Qed.

(** A loop whose body, on states that satisfy [P], returns a state that
    satisfies [P] and adds [delta k] to every observed quantity: it returns,
    keeps [P] and has added the sum of the [delta k]. *)
Lemma for_loop_accumulates {St K : Type} (P : St -> Prop) (obs : St -> K -> R)
      (body : nat -> St -> outcome St) (delta : nat -> K -> R) (n : nat) :
  (forall k s, k < n -> P s ->
     exists s', body k s = Normal s' /\ P s' /\
                forall x, obs s' x = (obs s x + delta k x)%R) ->
  forall c s, c <= n -> P s ->
    exists s', for_loop 0 c body s = Normal s' /\ P s' /\
               forall x, obs s' x
                         = (obs s x + sum_upto c (fun k => delta k x))%R.
Proof.
  intros Hbody. induction c as [| c IH]; intros s Hc HP.
  - exists s. repeat split; trivial. intros x. unfold sum_upto. simpl. lra.
  - destruct (IH s) as (s1 & Hloop & HP1 & Hobs1); [lia | exact HP |].
    destruct (Hbody c s1) as (s2 & Hstep & HP2 & Hobs2); [lia | exact HP1 |].
    exists s2. rewrite for_loop_snoc, Hloop, bind_Normal.
    repeat split; trivial.
    intros x. rewrite Hobs2, Hobs1, sum_upto_S. lra.
Qed.

Lemma for_each_accumulates {A St K : Type} (P : St -> Prop) (obs : St -> K -> R)
      (body : A -> St -> outcome St) (delta : A -> K -> R) (l : list A) :
  Forall (fun a => forall s, P s ->
            exists s', body a s = Normal s' /\ P s' /\
                       forall x, obs s' x = (obs s x + delta a x)%R) l ->
  forall s, P s ->
    exists s', for_each l body s = Normal s' /\ P s' /\
               forall x, obs s' x
                         = (obs s x
                            + fold_right (fun a acc => delta a x + acc) 0 l)%R.
Proof.
  induction 1 as [| a l Ha _ IH]; intros s HP.
  - exists s. repeat split; trivial. intros x. simpl. lra.
  - destruct (Ha s HP) as (s1 & Hstep & HP1 & Hobs1).
    destruct (IH s1 HP1) as (s2 & Hrest & HP2 & Hobs2).
    exists s2. simpl. rewrite Hstep, bind_Normal.
    repeat split; trivial.
    intros x. rewrite Hobs2, Hobs1. simpl. lra.
Qed.

(** ** Adding into vectors and matrices *)

Lemma nth_insert_R (v : list R) (i k : nat) (x : R) :
  i < length v ->
  nth k (<[i := x]> v) 0%R = if decide (k = i) then x else nth k v 0%R.
Proof.
  intros Hi. rewrite !nth_lookup.
  destruct (decide (k = i)) as [-> | Hne].
  - now rewrite list_lookup_insert_eq.
  - now rewrite list_lookup_insert_ne by congruence.
Qed.

Lemma add_to_coordinate_in_range (v : list R) (i : nat) (x : R) :
  i < length v ->
  exists v', add_to_coordinate v i x = Normal v' /\ length v' = length v /\
             forall k, nth k v' 0%R
                       = (nth k v 0%R + if decide (k = i) then x else 0)%R.
Proof.
  intros Hi. destruct (lookup_lt_is_Some_2 v i Hi) as [old Hold].
  exists (<[i := (old + x)%R]> v). unfold add_to_coordinate.
  rewrite (index_Some _ _ _ Hold), bind_Normal, store_in_range by exact Hi.
  repeat split; [apply length_insert |].
  intros k. rewrite nth_insert_R by exact Hi.
  destruct (decide (k = i)) as [-> | _]; [| lra].
  now rewrite (nth_lookup_Some v i 0%R old Hold).
Qed.

Lemma add_to_entry_in_range (n : nat) (m : list (list R)) (i j : nat) (x : R) :
  length m = n -> Forall (fun row => length row = n) m -> i < n -> j < n ->
  exists m', add_to_entry m i j x = Normal m' /\
             length m' = n /\ Forall (fun row => length row = n) m' /\
             forall i' j', entry m' i' j'
                           = (entry m i' j'
                              + if decide (i' = i /\ j' = j) then x else 0)%R.
Proof.
  intros Hlen Hrows Hi Hj.
  destruct (lookup_lt_is_Some_2 m i) as [row Hrow]; [lia |].
  pose proof (proj1 (Forall_lookup _ _) Hrows i row Hrow) as Hrowlen.
  simpl in Hrowlen.
  destruct (add_to_coordinate_in_range row j x) as (row' & Hadd & Hlen' & Hnth);
    [lia |].
  exists (<[i := row']> m). unfold add_to_entry.
  rewrite (index_Some _ _ _ Hrow), bind_Normal, Hadd, bind_Normal.
  rewrite store_in_range by lia.
  repeat split.
  - rewrite length_insert. exact Hlen.
  - apply Forall_insert; [exact Hrows | lia].
  - intros i' j'. unfold entry.
    destruct (decide (i' = i)) as [-> | Hne].
    + rewrite (nth_lookup_Some (<[i := row']> m) i [] row')
        by (apply list_lookup_insert_eq; lia).
      rewrite (nth_lookup_Some m i [] row Hrow), Hnth.
      destruct (decide (j' = j)), (decide (i = i /\ j' = j)); tauto || lra.
    + rewrite !nth_lookup, list_lookup_insert_ne by congruence.
      destruct (decide (i' = i /\ j' = j)); [tauto | lra].
Qed.

Lemma sum_upto_guarded (n : nat) (C : Prop) `{Decision C} (g : nat -> R) :
  sum_upto n (fun q => if decide C then g q else 0%R)
  = if decide C then sum_upto n g else 0%R.
Proof.
  destruct (decide C); [reflexivity | apply sum_upto_zero].
Qed.

Lemma sum_upto_select (n k : nat) (C : Prop) `{Decision C} (g : nat -> R) :
  sum_upto n (fun j => if decide (C /\ k = j) then g j else 0%R)
  = if decide (C /\ k < n) then g k else 0%R.
Proof.
  destruct (decide C) as [HC | HC].
  - rewrite (sum_upto_ext n _ (fun j => if decide (j = k) then g k else 0%R)).
    + rewrite sum_upto_single.
      destruct (decide (k < n)), (decide (C /\ k < n)); tauto || reflexivity.
    + intros j _.
      destruct (decide (C /\ k = j)) as [[_ Hk] | Hn];
        destruct (decide (j = k)) as [Hj | Hj];
        subst; try reflexivity; try congruence.
      exfalso. apply Hn. now split.
  - rewrite (sum_upto_ext n _ (fun _ => 0%R)).
    + rewrite sum_upto_zero. destruct (decide (C /\ k < n)); tauto || reflexivity.
    + intros j _. destruct (decide (C /\ k = j)); tauto || reflexivity.
Qed.

Lemma nth_replicate_zero (n k : nat) : nth k (replicate n 0%R) 0%R = 0%R.
Proof.
  rewrite nth_lookup. destruct (decide (k < n)).
  - now rewrite lookup_replicate_2.
  - now rewrite (proj1 (lookup_replicate_None n 0%R k)) by lia.
Qed.

Lemma entry_zero_matrix (n i j : nat) :
  entry (replicate n (replicate n 0%R)) i j = 0%R.
Proof.
  unfold entry. rewrite (nth_lookup (replicate n (replicate n 0%R))).
  destruct (decide (i < n)).
  - rewrite lookup_replicate_2 by lia. apply nth_replicate_zero.
  - rewrite (proj1 (lookup_replicate_None n (replicate n 0%R) i)) by lia.
    simpl. now destruct j.
Qed.

(** Two guards that cannot differ. *)
Ltac guards_agree :=
  try reflexivity; exfalso;
  repeat match goal with H : _ /\ _ |- _ => destruct H end;
  match goal with
  | H : ~ _ |- _ => apply H; repeat split; (congruence || lia)
  end.

Section CellContributions.
Variables (dim n nq : nat) (fe_values : FEValues).

(** The two integrands at the point [q]. *)
Let a (i j q : nat) : R :=
  (Tensor1_dot dim (shape_grad fe_values i q) (shape_grad fe_values j q)
   * JxW fe_values q)%R.
Let b (i q : nat) : R :=
  (shape_value fe_values i q
   * RightHandSide.value (quadrature_point fe_values q) 0
   * JxW fe_values q)%R.

Let shaped (s : list (list R) * list R) : Prop :=
  length (fst s) = n /\ Forall (fun row => length row = n) (fst s)
  /\ length (snd s) = n.

Let observe (s : list (list R) * list R) (x : nat * nat + nat) : R :=
  match x with
  | inl (i, j) => entry (fst s) i j
  | inr i => nth i (snd s) 0%R
  end.

Lemma j_loop (i q : nat) (m : list (list R)) :
  length m = n -> Forall (fun row => length row = n) m -> i < n ->
  exists m',
    for_loop 0 n (fun j m => add_to_entry m i j (a i j q)) m = Normal m' /\
    length m' = n /\ Forall (fun row => length row = n) m' /\
    forall i' j', entry m' i' j'
                  = (entry m i' j'
                     + if decide (i = i' /\ j' < n)%nat then a i j' q else 0)%R.
Proof.
  intros Hlen Hrows Hi.
  destruct (for_loop_accumulates
              (fun m => length m = n /\ Forall (fun row => length row = n) m)
              (fun m (x : nat * nat) => entry m (fst x) (snd x))
              (fun j m => add_to_entry m i j (a i j q))
              (fun j x => if decide (i = fst x /\ snd x = j) then a i j q else 0%R)
              n) with (c := n) (s := m)
    as (m' & Hloop & [Hlen' Hrows'] & Hobs); trivial; [| now split |].
  - intros j m0 Hj [Hl Hr].
    destruct (add_to_entry_in_range n m0 i j (a i j q) Hl Hr Hi Hj)
      as (m1 & Hadd & Hl1 & Hr1 & Hentry).
    exists m1. repeat split; trivial.
    intros [i' j']. simpl. rewrite Hentry.
    destruct (decide (i' = i /\ j' = j)), (decide (i = i' /\ j' = j));
      guards_agree.
  - exists m'. repeat split; trivial.
    intros i' j'. pose proof (Hobs (i', j')) as H. simpl in H.
    rewrite H. f_equal.
    apply (sum_upto_select n j' (i = i') (fun j => a i j q)).
Qed.

Lemma i_loop (q : nat) (s : list (list R) * list R) :
  shaped s ->
  exists s',
    for_loop 0 n
      (fun i '(cell_matrix, cell_rhs) =>
         cell_matrix ← for_loop 0 n
                         (fun j m => add_to_entry m i j (a i j q)) cell_matrix;
         cell_rhs ← add_to_coordinate cell_rhs i (b i q);
         Normal (cell_matrix, cell_rhs)) s = Normal s' /\
    shaped s' /\
    forall x, observe s' x
              = (observe s x
                 + match x with
                   | inl (i', j') =>
                       if decide (i' < n /\ j' < n)%nat then a i' j' q else 0
                   | inr i' => if decide (i' < n)%nat then b i' q else 0
                   end)%R.
Proof.
  intros Hs.
  destruct (for_loop_accumulates shaped observe
              (fun i '(cell_matrix, cell_rhs) =>
                 cell_matrix ← for_loop 0 n
                                 (fun j m => add_to_entry m i j (a i j q))
                                 cell_matrix;
                 cell_rhs ← add_to_coordinate cell_rhs i (b i q);
                 Normal (cell_matrix, cell_rhs))
              (fun i x =>
                 match x with
                 | inl (i', j') =>
                     if decide (i = i' /\ j' < n)%nat then a i j' q else 0%R
                 | inr i' => if decide (i' = i) then b i q else 0%R
                 end)
              n) with (c := n) (s := s)
    as (s' & Hloop & Hs' & Hobs); trivial.
  - intros i [m v] Hi (Hl & Hr & Hv). simpl in Hl, Hr, Hv.
    destruct (j_loop i q m Hl Hr Hi) as (m' & Hj & Hl' & Hr' & Hentry).
    destruct (add_to_coordinate_in_range v i (b i q)) as (v' & Hadd & Hv' & Hnth);
      [lia |].
    exists (m', v'). rewrite Hj, bind_Normal, Hadd, bind_Normal.
    split; [reflexivity |]. split; [repeat split; simpl; trivial; lia |].
    intros [[i' j'] | i']; simpl; [apply Hentry | apply Hnth].
  - exists s'. split; [exact Hloop |]. split; [exact Hs' |].
    intros [[i' j'] | i']; rewrite Hobs; f_equal.
    + rewrite (sum_upto_ext n _
                 (fun i => if decide (j' < n /\ i' = i)%nat then a i j' q else 0%R)).
      * rewrite (sum_upto_select n i' (j' < n) (fun i => a i j' q)).
        destruct (decide (j' < n /\ i' < n)%nat), (decide (i' < n /\ j' < n)%nat);
          guards_agree.
      * intros i _.
        destruct (decide (i = i' /\ j' < n)%nat), (decide (j' < n /\ i' = i)%nat);
          guards_agree.
    + rewrite (sum_upto_ext n _
                 (fun i => if decide (True /\ i' = i) then b i q else 0%R)).
      * rewrite (sum_upto_select n i' True (fun i => b i q)).
        destruct (decide (True /\ i' < n)%nat), (decide (i' < n)%nat);
          guards_agree.
      * intros i _.
        destruct (decide (i' = i)), (decide (True /\ i' = i));
          guards_agree.
Qed.

(** The loops on one cell always return, with the two sums over the
    quadrature points in the entries. *)
Lemma cell_contributions_closed_form :
  exists K f,
    Stages.cell_contributions dim n nq fe_values = Normal (K, f) /\
    length K = n /\ Forall (fun row => length row = n) K /\ length f = n /\
    (forall i j,
        entry K i j
        = if decide (i < n /\ j < n)%nat
          then sum_upto nq (fun q => a i j q) else 0%R) /\
    (forall i,
        nth i f 0%R
        = if decide (i < n)%nat then sum_upto nq (fun q => b i q) else 0%R).
Proof.
  destruct (for_loop_accumulates shaped observe
              (fun q_index =>
                 for_loop 0 n
                   (fun i '(cell_matrix, cell_rhs) =>
                      cell_matrix ←
                        for_loop 0 n
                          (fun j m => add_to_entry m i j (a i j q_index))
                          cell_matrix;
                      cell_rhs ← add_to_coordinate cell_rhs i (b i q_index);
                      Normal (cell_matrix, cell_rhs)))
              (fun q x =>
                 match x with
                 | inl (i', j') =>
                     if decide (i' < n /\ j' < n)%nat then a i' j' q else 0%R
                 | inr i' => if decide (i' < n)%nat then b i' q else 0%R
                 end)
              nq) with (c := nq)
                       (s := (replicate n (replicate n 0%R), replicate n 0%R))
    as ([K f] & Hloop & (Hl & Hr & Hv) & Hobs); trivial.
  - intros q s _ Hs. apply (i_loop q s Hs).
  - repeat split; simpl.
    + apply length_replicate.
    + apply Forall_replicate. apply length_replicate.
    + apply length_replicate.
  - exists K, f. simpl in Hl, Hr, Hv.
    split; [exact Hloop |]. repeat split; trivial.
    + intros i j. pose proof (Hobs (inl (i, j))) as H. simpl in H.
      rewrite H, entry_zero_matrix, Rplus_0_l.
      apply (sum_upto_guarded nq (i < n /\ j < n) (fun q => a i j q)).
    + intros i. pose proof (Hobs (inr i)) as H. simpl in H.
      rewrite H, nth_replicate_zero, Rplus_0_l.
      apply (sum_upto_guarded nq (i < n) (fun q => b i q)).
Qed.
End CellContributions.

Lemma fold_left_ext_R (f g : R -> nat -> R) (l : list nat) (a : R) :
  (forall x d, f x d = g x d) -> fold_left f l a = fold_left g l a.
Proof.
  intros H. revert a. induction l as [| d l IH]; intros a; simpl; [reflexivity |].
  rewrite H. apply IH.
Qed.

Lemma Tensor1_dot_comm (dim : nat) (u v : Tensor1) :
  Tensor1_dot dim u v = Tensor1_dot dim v u.
Proof.
  unfold Tensor1_dot. apply fold_left_ext_R. intros x d. lra.
Qed.

(** ** The assembly *)

(** X15. On every cell the loops over the quadrature points and the local
    degrees of freedom return, never leaving [cell_matrix] or [cell_rhs]:
    entry (i, j) of the local matrix is the sum over the quadrature points of
    grad_i . grad_j JxW, and entry i of the local right-hand side is the sum
    of shape_i JxW, in which the quadrature points themselves do not
    appear since the right-hand side function is 1. *)
Theorem X15_cell_loops_compute_the_quadrature_sums
        (dim dofs_per_cell n_q_points : nat) (fe_values : FEValues) :
  exists cell_matrix cell_rhs,
    Stages.cell_contributions dim dofs_per_cell n_q_points fe_values
    = Normal (cell_matrix, cell_rhs) /\
    length cell_matrix = dofs_per_cell /\
    Forall (fun row => length row = dofs_per_cell) cell_matrix /\
    length cell_rhs = dofs_per_cell /\
    (forall i j, i < dofs_per_cell -> j < dofs_per_cell ->
       entry cell_matrix i j
       = sum_upto n_q_points
           (fun q => (Tensor1_dot dim (shape_grad fe_values i q)
                                      (shape_grad fe_values j q)
                      * JxW fe_values q)%R)) /\
    (forall i, i < dofs_per_cell ->
       nth i cell_rhs 0%R
       = sum_upto n_q_points
           (fun q => (shape_value fe_values i q * JxW fe_values q)%R)).
Proof.
  destruct (cell_contributions_closed_form dim dofs_per_cell n_q_points fe_values)
    as (K & f & Hret & Hl & Hr & Hv & HK & Hf).
  exists K, f. repeat split; trivial.
  - intros i j Hi Hj. rewrite HK.
    destruct (decide (i < dofs_per_cell /\ j < dofs_per_cell)); [reflexivity | tauto].
  - intros i Hi. rewrite Hf.
    destruct (decide (i < dofs_per_cell)); [| tauto].
    apply sum_upto_ext. intros q _. unfold RightHandSide.value. lra.
Qed.

(** X16. The local matrix the cell loops return is symmetric. *)
Theorem X16_cell_matrix_is_symmetric
        (dim dofs_per_cell n_q_points : nat) (fe_values : FEValues) :
  exists cell_matrix cell_rhs,
    Stages.cell_contributions dim dofs_per_cell n_q_points fe_values
    = Normal (cell_matrix, cell_rhs) /\
    forall i j, entry cell_matrix i j = entry cell_matrix j i.
Proof.
  destruct (cell_contributions_closed_form dim dofs_per_cell n_q_points fe_values)
    as (K & f & Hret & Hl & Hr & Hv & HK & Hf).
  exists K, f. split; [exact Hret |].
  intros i j. rewrite !HK.
  destruct (decide (i < dofs_per_cell /\ j < dofs_per_cell)),
    (decide (j < dofs_per_cell /\ i < dofs_per_cell)); try tauto; try reflexivity.
  apply sum_upto_ext. intros q _. now rewrite Tensor1_dot_comm.
Qed.

Lemma total_insert (v : list R) (i : nat) (old y : R) :
  v !! i = Some old -> total (<[i := y]> v) = (total v - old + y)%R.
Proof.
  revert i. induction v as [| x v IH]; intros [| i] H; try discriminate.
  - injection H as ->. simpl. lra.
  - simpl in *. rewrite (IH i H). lra.
Qed.

Lemma add_to_coordinate_total (v : list R) (i : nat) (x : R) :
  i < length v ->
  exists v', add_to_coordinate v i x = Normal v' /\ length v' = length v /\
             total v' = (total v + x)%R.
Proof.
  intros Hi. destruct (lookup_lt_is_Some_2 v i Hi) as [old Hold].
  exists (<[i := (old + x)%R]> v). unfold add_to_coordinate.
  rewrite (index_Some _ _ _ Hold), bind_Normal, store_in_range by exact Hi.
  repeat split; [apply length_insert |].
  rewrite (total_insert v i old _ Hold). lra.
Qed.

Lemma sum_upto_shift (n : nat) (f : nat -> R) :
  sum_upto (S n) f = (f 0%nat + sum_upto n (fun k => f (S k)))%R.
Proof.
  induction n as [| n IH].
  - unfold sum_upto. simpl. lra.
  - rewrite sum_upto_S, IH, sum_upto_S. lra.
Qed.

Lemma sum_upto_nth_total (v : list R) :
  sum_upto (length v) (fun i => nth i v 0%R) = total v.
Proof.
  induction v as [| x v IH]; [reflexivity |].
  simpl length. rewrite sum_upto_shift. simpl. now rewrite IH.
Qed.

Section Scatter.
Context {Triangulation DoFHandler SparsityPattern SparseMatrix Cell : Type}.
Variable lib : Library Triangulation DoFHandler SparsityPattern SparseMatrix Cell.

(** The scatter loops return when the indices are in range, and add the
    local right-hand side into the global one entry by entry. *)
Lemma scatter_total (n : nat) (local_dof_indices : list nat)
      (cell_matrix : list (list R)) (cell_rhs : list R)
      (system_matrix : SparseMatrix) (system_rhs : Vector) :
  n <= length local_dof_indices ->
  (forall i, i < n -> nth i local_dof_indices 0 < length system_rhs) ->
  length cell_matrix = n ->
  Forall (fun row => length row = n) cell_matrix ->
  length cell_rhs = n ->
  exists system_matrix' system_rhs',
    Stages.scatter lib n local_dof_indices cell_matrix cell_rhs
                   (system_matrix, system_rhs)
    = Normal (system_matrix', system_rhs') /\
    length system_rhs' = length system_rhs /\
    total system_rhs' = (total system_rhs + total cell_rhs)%R.
Proof.
  intros Hidx Hrange HlK HrK Hlf.
  destruct (for_loop_accumulates
              (fun s : SparseMatrix * Vector => length (snd s) = length system_rhs)
              (fun s (_ : unit) => total (snd s))
              (fun i '(system_matrix, system_rhs) =>
                 system_matrix ←
                   for_loop 0 n
                     (fun j system_matrix =>
                        gi ← index local_dof_indices i;
                        gj ← index local_dof_indices j;
                        row ← index cell_matrix i;
                        value ← index row j;
                        Normal (matrix_add lib system_matrix gi gj value))
                     system_matrix;
                 gi ← index local_dof_indices i;
                 value ← index cell_rhs i;
                 system_rhs ← add_to_coordinate system_rhs gi value;
                 Normal (system_matrix, system_rhs))
              (fun i _ => nth i cell_rhs 0%R)
              n) with (c := n) (s := (system_matrix, system_rhs))
    as ([M' rhs'] & Hloop & Hlen & Hobs); trivial.
  - intros i [M v] Hi Hv. simpl in Hv.
    destruct (lookup_lt_is_Some_2 local_dof_indices i) as [gi Hgi]; [lia |].
    destruct (lookup_lt_is_Some_2 cell_matrix i) as [row Hrow]; [lia |].
    destruct (lookup_lt_is_Some_2 cell_rhs i) as [fi Hfi]; [lia |].
    pose proof (proj1 (Forall_lookup _ _) HrK i row Hrow) as Hrowlen.
    simpl in Hrowlen.
    destruct (for_loop_accumulates
                (fun _ : SparseMatrix => True)
                (fun _ (_ : unit) => 0%R)
                (fun j system_matrix =>
                   gi ← index local_dof_indices i;
                   gj ← index local_dof_indices j;
                   row ← index cell_matrix i;
                   value ← index row j;
                   Normal (matrix_add lib system_matrix gi gj value))
                (fun _ _ => 0%R) n) with (c := n) (s := M)
      as (M1 & Hinner & _ & _); trivial.
    { intros j M0 Hj _.
      destruct (lookup_lt_is_Some_2 local_dof_indices j) as [gj Hgj]; [lia |].
      destruct (lookup_lt_is_Some_2 row j) as [value Hvalue]; [lia |].
      eexists.
      rewrite (index_Some _ _ _ Hgi), bind_Normal.
      rewrite (index_Some _ _ _ Hgj), bind_Normal.
      rewrite (index_Some _ _ _ Hrow), bind_Normal.
      rewrite (index_Some _ _ _ Hvalue), bind_Normal.
      repeat split. intros _. lra. }
    destruct (add_to_coordinate_total v gi fi) as (v' & Hadd & Hv' & Htot).
    { rewrite Hv, <- (nth_lookup_Some local_dof_indices i 0 gi Hgi).
      now apply Hrange. }
    exists (M1, v').
    rewrite Hinner, bind_Normal.
    rewrite (index_Some _ _ _ Hgi), bind_Normal.
    rewrite (index_Some _ _ _ Hfi), bind_Normal.
    rewrite Hadd, bind_Normal.
    split; [reflexivity |]. split; [simpl; lia |].
    intros _. simpl. rewrite Htot.
    now rewrite (nth_lookup_Some cell_rhs i 0%R fi Hfi).
  - exists M', rhs'. split; [exact Hloop |]. split; [exact Hlen |].
    pose proof (Hobs tt) as H. simpl in H. rewrite H. f_equal.
    rewrite <- Hlf. apply sum_upto_nth_total.
Qed.

(** X17. When every active cell has its local indices within the global
    right-hand side, the loop over the cells returns, leaves the size of
    [system_rhs] alone and adds to the sum of its entries, cell after cell,
    the sum over the local degrees of freedom and quadrature points of
    shape_i JxW: nothing is lost or counted twice where cells share
    indices. *)
Theorem X17_assembly_adds_up_the_cell_loads
        (dim : nat) (cells : list Cell)
        (system_matrix : SparseMatrix) (system_rhs : Vector) :
  Forall (indices_in_range lib (length system_rhs)) cells ->
  exists system_matrix' system_rhs',
    Stages.assemble_cells lib dim cells (system_matrix, system_rhs)
    = Normal (system_matrix', system_rhs') /\
    length system_rhs' = length system_rhs /\
    total system_rhs'
    = (total system_rhs
       + fold_right (fun cell acc => cell_load lib cell + acc) 0 cells)%R.
Proof.
  intros Hcells.
  unfold Stages.assemble_cells. cbv zeta.
  fold (cell_fe_values lib).
  destruct (for_each_accumulates
              (fun s : SparseMatrix * Vector => length (snd s) = length system_rhs)
              (fun s (_ : unit) => total (snd s))
              (fun cell system =>
                 local ← Stages.cell_contributions dim
                           (fe_dofs_per_cell lib Stages.fe)
                           (quadrature_size lib 2)
                           (cell_fe_values lib cell);
                 Stages.scatter lib (fe_dofs_per_cell lib Stages.fe)
                                (get_dof_indices lib cell)
                                (fst local) (snd local) system)
              (fun cell _ => cell_load lib cell)
              cells) with (s := (system_matrix, system_rhs))
    as ([M' rhs'] & Hloop & Hlen & Hobs); trivial.
  - eapply Forall_impl; [exact Hcells |].
    intros cell [Hidx Hrange] [M v] Hv. simpl in Hv.
    destruct (cell_contributions_closed_form
                dim (fe_dofs_per_cell lib Stages.fe) (quadrature_size lib 2)
                (cell_fe_values lib cell))
      as (K & f & Hret & HlK & HrK & Hlf & _ & Hf).
    destruct (scatter_total (fe_dofs_per_cell lib Stages.fe)
                            (get_dof_indices lib cell) K f M v)
      as (M1 & v1 & Hsc & Hl1 & Htot); trivial.
    { intros i Hi. rewrite Hv. now apply Hrange. }
    exists (M1, v1). rewrite Hret, bind_Normal. simpl fst. simpl snd.
    split; [exact Hsc |]. split; [lia |].
    intros _. rewrite Htot. f_equal.
    rewrite <- sum_upto_nth_total, Hlf. unfold cell_load.
    apply sum_upto_ext. intros i Hi. rewrite Hf.
    destruct (decide (i < fe_dofs_per_cell lib Stages.fe)); [| tauto].
    apply sum_upto_ext. intros q _. unfold RightHandSide.value. lra.
  - exists M', rhs'. split; [exact Hloop |]. split; [exact Hlen |].
    exact (Hobs tt).
Qed.
End Scatter.

Lemma X17_assembly_adds_up_the_cell_loads_witness :
  exists system_matrix' system_rhs',
    Stages.assemble_cells toy_library 1 [0] (tt, [0%R; 0%R])
    = Normal (system_matrix', system_rhs') /\
    length system_rhs' = length [0%R; 0%R] /\
    total system_rhs'
    = (total [0%R; 0%R]
       + fold_right (fun cell acc => cell_load toy_library cell + acc) 0 [0%nat])%R.
Proof.
  apply (X17_assembly_adds_up_the_cell_loads toy_library 1 [0] tt [0%R; 0%R]).
  constructor; [| constructor].
  split; simpl; [lia |].
  intros [| [| i]] Hi; simpl; lia.
Defined.

(** ** The whole program *)

Section WholeProgram.
Context {Triangulation DoFHandler SparsityPattern SparseMatrix Cell : Type}.
Variable lib : Library Triangulation DoFHandler SparsityPattern SparseMatrix Cell.

Lemma make_grid_inv (s s1 : @Step4 Triangulation DoFHandler SparsityPattern SparseMatrix)
      (w w1 : World DoFHandler) :
  Stages.make_grid lib s w = (Normal s1, w1) ->
  files w1 = files w /\
  console w1
  = console w ++
    ["   Number of active cells: "
     +:+ pretty (n_active_cells lib (triangulation s1));
     "   Total number of cells: " +:+ pretty (n_cells lib (triangulation s1))].
Proof.
  unfold Stages.make_grid, run_bind, print, run_ret. cbv zeta.
  intros H. injection H as <- <-. cbn [console files triangulation].
  split; [reflexivity |]. now rewrite <- app_assoc.
Qed.

Lemma setup_system_inv (s s2 : @Step4 Triangulation DoFHandler SparsityPattern SparseMatrix)
      (w w2 : World DoFHandler) :
  Stages.setup_system lib s w = (Normal s2, w2) ->
  files w2 = files w /\
  console w2
  = console w ++
    ["   Number of degrees of freedom: " +:+ pretty (n_dofs lib (dof_handler s2))].
Proof.
  unfold Stages.setup_system, run_bind, print, run_ret. cbv zeta.
  intros H. injection H as <- <-. cbn [console files dof_handler].
  split; reflexivity.
Qed.

Lemma assemble_system_inv (dim : nat)
      (s s3 : @Step4 Triangulation DoFHandler SparsityPattern SparseMatrix)
      (w w3 : World DoFHandler) :
  Stages.assemble_system lib dim s w = (Normal s3, w3) -> w3 = w.
Proof.
  unfold Stages.assemble_system, run_bind, lift, run_ret.
  destruct (Stages.assemble_cells lib dim _ _) as [system | | |];
    try discriminate.
  destruct (apply_boundary_values lib _ _ _ _) as [[M x] b].
  intros H. now injection H as _ <-.
Qed.

(** X18. The transcript of a successful program: when the assembly returns,
    CG converges at step [k <= 1000] and the post-processor accepts the
    patches, [main] returns 0, the console has gained exactly five lines, in
    this order: the dimension, the active cells, the cells, the degrees of
    freedom, the CG step count; and the one change in the files is
    "solution-2d.vtk", which holds iterate [k] as its solution. *)
Theorem X18_transcript_of_a_successful_program
        (debug : bool)
        (cg_iterate :
           SparseMatrix -> Vector -> Vector -> PreconditionSSOR SparseMatrix ->
           nat -> Vector)
        (cg_residual :
           SparseMatrix -> Vector -> Vector -> PreconditionSSOR SparseMatrix ->
           nat -> R)
        (patch_samples : DoFHandler -> Vector -> list (list R * list Tensor1))
        (s0 s1 s2 s3 : @Step4 Triangulation DoFHandler SparsityPattern SparseMatrix)
        (w0 w1 w2 w3 : World DoFHandler) (k : nat) :
  Stages.make_grid lib s0 (started 2 w0) = (Normal s1, w1) ->
  Stages.setup_system lib s1 w1 = (Normal s2, w2) ->
  Stages.assemble_system lib 2 s2 w2 = (Normal s3, w3) ->
  k <= 1000 ->
  (residuals cg_residual s3 k <= 1e-12)%R ->
  (forall j, j < k -> (residuals cg_residual s3 j > 1e-12)%R) ->
  Forall (patch_ok debug 2)
         (patch_samples (dof_handler s3) (iterates cg_iterate s3 k)) ->
  exists data,
    solution_written data = iterates cg_iterate s3 k /\
    main debug cg_iterate cg_residual patch_samples
         (Stages.make_grid lib) (Stages.setup_system lib)
         (Stages.assemble_system lib 2) s0 w0
    = (Normal 0%Z,
       {| console :=
            console w0 ++
            ["Solving problem in 2 space dimensions."%string;
             "   Number of active cells: "
             +:+ pretty (n_active_cells lib (triangulation s1));
             "   Total number of cells: "
             +:+ pretty (n_cells lib (triangulation s1));
             "   Number of degrees of freedom: "
             +:+ pretty (n_dofs lib (dof_handler s2));
             "   " +:+ pretty k
             +:+ " CG iterations needed to obtain convergence."];
          files := <["solution-2d.vtk"%string := data]> (files w0) |}).
Proof.
  intros H1 H2 H3 Hk Hres Hbefore Hok.
  destruct (run_converged debug 2 cg_iterate cg_residual patch_samples
              (Stages.make_grid lib) (Stages.setup_system lib)
              (Stages.assemble_system lib 2)
              s0 s1 s2 s3 w0 w1 w2 w3 k H1 H2 H3 Hk Hres Hbefore Hok)
    as (data & Hdata & Hrun).
  exists data. split; [exact Hdata |].
  unfold main, run_bind at 1. rewrite Hrun.
  apply assemble_system_inv in H3 as ->.
  apply setup_system_inv in H2 as [Hf2 Hc2].
  apply make_grid_inv in H1 as [Hf1 Hc1].
  unfold run_ret. f_equal. f_equal.
  - rewrite Hc2, Hc1. unfold started. cbn [console].
    now rewrite <- !app_assoc.
  - rewrite Hf2, Hf1. reflexivity.
Qed.
End WholeProgram.

Lemma X18_transcript_of_a_successful_program_witness :
  exists data,
    solution_written data = iterates stalled_iterate toy_set_up 0 /\
    main true stalled_iterate settled_residual one_patch
         (Stages.make_grid toy_library) (Stages.setup_system toy_library)
         (Stages.assemble_system toy_library 2) blank_problem empty_world
    = (Normal 0%Z,
       {| console :=
            console empty_world ++
            ["Solving problem in 2 space dimensions."%string;
             "   Number of active cells: "
             +:+ pretty (n_active_cells toy_library (triangulation blank_problem));
             "   Total number of cells: "
             +:+ pretty (n_cells toy_library (triangulation blank_problem));
             "   Number of degrees of freedom: "
             +:+ pretty (n_dofs toy_library (dof_handler toy_set_up));
             "   " +:+ pretty 0
             +:+ " CG iterations needed to obtain convergence."];
          files := <["solution-2d.vtk"%string := data]> (files empty_world) |}).
Proof.
  apply (X18_transcript_of_a_successful_program
           toy_library true stalled_iterate settled_residual one_patch
           blank_problem blank_problem toy_set_up toy_set_up
           empty_world
           (snd (Stages.make_grid toy_library blank_problem (started 2 empty_world)))
           (snd (Stages.setup_system toy_library blank_problem
                   (snd (Stages.make_grid toy_library blank_problem
                           (started 2 empty_world)))))
           (snd (Stages.setup_system toy_library blank_problem
                   (snd (Stages.make_grid toy_library blank_problem
                           (started 2 empty_world)))))
           0).
  - reflexivity.
  - reflexivity.
  - reflexivity.
  - lia.
  - unfold residuals, settled_residual. pose proof tolerance_below_one. lra.
  - intros j Hj. lia.
  - constructor; [apply sample_patch_ok | constructor].
Defined.

Section ProgramThatFails.
Context {Triangulation DoFHandler SparsityPattern SparseMatrix Cell : Type}.
Variable lib : Library Triangulation DoFHandler SparsityPattern SparseMatrix Cell.

(** X19. The transcript of a program whose solver gives up: when the
    assembly returns and no residual up to step 1000 is within the
    tolerance, [main] does not return but ends with [NoConvergence] at step
    1000; the console has gained exactly four lines, the dimension, the
    active cells, the cells and the degrees of freedom, without any line
    about CG, and the files are as they were. *)
Theorem X19_transcript_of_a_program_that_gives_up
        (debug : bool)
        (cg_iterate :
           SparseMatrix -> Vector -> Vector -> PreconditionSSOR SparseMatrix ->
           nat -> Vector)
        (cg_residual :
           SparseMatrix -> Vector -> Vector -> PreconditionSSOR SparseMatrix ->
           nat -> R)
        (patch_samples : DoFHandler -> Vector -> list (list R * list Tensor1))
        (s0 s1 s2 s3 : @Step4 Triangulation DoFHandler SparsityPattern SparseMatrix)
        (w0 w1 w2 w3 : World DoFHandler) :
  Stages.make_grid lib s0 (started 2 w0) = (Normal s1, w1) ->
  Stages.setup_system lib s1 w1 = (Normal s2, w2) ->
  Stages.assemble_system lib 2 s2 w2 = (Normal s3, w3) ->
  (forall j, j <= 1000 -> (residuals cg_residual s3 j > 1e-12)%R) ->
  main debug cg_iterate cg_residual patch_samples
       (Stages.make_grid lib) (Stages.setup_system lib)
       (Stages.assemble_system lib 2) s0 w0
  = (Thrown (NoConvergence 1000 (residuals cg_residual s3 1000)),
     {| console :=
          console w0 ++
          ["Solving problem in 2 space dimensions."%string;
           "   Number of active cells: "
           +:+ pretty (n_active_cells lib (triangulation s1));
           "   Total number of cells: "
           +:+ pretty (n_cells lib (triangulation s1));
           "   Number of degrees of freedom: "
           +:+ pretty (n_dofs lib (dof_handler s2))];
        files := files w0 |}).
Proof.
  intros H1 H2 H3 Hres.
  pose proof (run_no_convergence debug 2 cg_iterate cg_residual patch_samples
                (Stages.make_grid lib) (Stages.setup_system lib)
                (Stages.assemble_system lib 2)
                s0 s1 s2 s3 w0 w1 w2 w3 H1 H2 H3 Hres) as Hrun.
  unfold main, run_bind at 1. rewrite Hrun.
  apply (assemble_system_inv lib) in H3 as ->.
  apply (setup_system_inv lib) in H2 as [Hf2 Hc2].
  apply (make_grid_inv lib) in H1 as [Hf1 Hc1].
  f_equal. destruct w2 as [c2 f2]. cbn [console files] in *. subst c2 f2.
  rewrite Hc1, Hf1. unfold started. cbn [console files].
  now rewrite <- !app_assoc.
Qed.
End ProgramThatFails.

Lemma X19_transcript_of_a_program_that_gives_up_witness :
  main true stalled_iterate stalled_residual one_patch
       (Stages.make_grid toy_library) (Stages.setup_system toy_library)
       (Stages.assemble_system toy_library 2) blank_problem empty_world
  = (Thrown (NoConvergence 1000 (residuals stalled_residual toy_set_up 1000)),
     {| console :=
          console empty_world ++
          ["Solving problem in 2 space dimensions."%string;
           "   Number of active cells: "
           +:+ pretty (n_active_cells toy_library (triangulation blank_problem));
           "   Total number of cells: "
           +:+ pretty (n_cells toy_library (triangulation blank_problem));
           "   Number of degrees of freedom: "
           +:+ pretty (n_dofs toy_library (dof_handler toy_set_up))];
        files := files empty_world |}).
Proof.
  apply (X19_transcript_of_a_program_that_gives_up
           toy_library true stalled_iterate stalled_residual one_patch
           blank_problem blank_problem toy_set_up toy_set_up
           empty_world
           (snd (Stages.make_grid toy_library blank_problem (started 2 empty_world)))
           (snd (Stages.setup_system toy_library blank_problem
                   (snd (Stages.make_grid toy_library blank_problem
                           (started 2 empty_world)))))
           (snd (Stages.setup_system toy_library blank_problem
                   (snd (Stages.make_grid toy_library blank_problem
                           (started 2 empty_world)))))).
  - reflexivity.
  - reflexivity.
  - reflexivity.
  - intros j _. exact tolerance_below_one.
Defined.

(** ** The output stage and the size assertions *)

Lemma mapM_decided {A B : Type} (f : A -> outcome B) (e : Exception)
      (l : list A) :
  Forall (fun x => (exists y, f x = Normal y) \/ f x = Thrown e) l ->
  (exists ys, mapM f l = Normal ys) \/ mapM f l = Thrown e.
Proof.
  induction 1 as [| x l Hx _ IH]; [left; now exists [] |].
  simpl. destruct Hx as [[y Hy] | Hx].
  - rewrite Hy, bind_Normal.
    destruct IH as [[ys Hys] | Hl].
    + left. exists (y :: ys). now rewrite Hys.
    + right. now rewrite Hl.
  - right. now rewrite Hx.
Qed.

(** X20. The output stage cannot trip the size assertions of the
    post-processor nor make it index out of bounds: [DataOut] sizes each
    output row by the number of names, which is the [dim + 2] the assertion
    asks for.  On patches of the right sizes the stage either returns or, in
    a debug build only, ends with "Sqrt of negative!". *)
Theorem X20_output_stage_meets_the_size_assertions
        {Triangulation DoFHandler SparsityPattern SparseMatrix : Type}
        (debug : bool) (dim : nat)
        (patch_samples : DoFHandler -> Vector -> list (list R * list Tensor1))
        (s : @Step4 Triangulation DoFHandler SparsityPattern SparseMatrix)
        (w : World DoFHandler) :
  Forall (patch_shaped dim) (patch_samples (dof_handler s) (solution s)) ->
  fst (output_results debug dim patch_samples s w) = Normal tt
  \/ (debug = true /\
      output_results debug dim patch_samples s w
      = (Thrown (ExcMessage "Sqrt of negative!"), w)).
Proof.
  intros Hshaped. destruct debug.
  - assert (Hdec :
      Forall (fun sample =>
                (exists rows, postprocess_patch true dim (dim + 2) sample
                              = Normal rows)
                \/ postprocess_patch true dim (dim + 2) sample
                   = Thrown (ExcMessage "Sqrt of negative!"))
             (patch_samples (dof_handler s) (solution s))).
    { eapply Forall_impl; [exact Hshaped |]. intros sample Hs.
      exact (proj2 (postprocess_patch_decided dim sample Hs)). }
    apply mapM_decided in Hdec.
    unfold output_results. cbv zeta. unfold run_bind, lift, build_patches.
    cbn [attached_dof_handler postprocessed_vectors derived_names
         named_vectors derived_interpretation].
    rewrite get_names_length. cbn [mapM].
    destruct Hdec as [[rows Hrows] | Hthrown].
    + left. rewrite Hrows. reflexivity.
    + right. split; [reflexivity |]. rewrite Hthrown. reflexivity.
  - left. rewrite output_results_writes; [reflexivity |].
    eapply Forall_impl; [exact Hshaped |].
    intros sample [Hsz Hsmall Hten Hne]. split; trivial. discriminate.
Qed.

Lemma X20_output_stage_meets_the_size_assertions_witness :
  fst (output_results true 1 negative_patch blank_problem empty_world)
  = Normal tt
  \/ (true = true /\
      output_results true 1 negative_patch blank_problem empty_world
      = (Thrown (ExcMessage "Sqrt of negative!"), empty_world)).
Proof.
  apply (X20_output_stage_meets_the_size_assertions
           true 1 negative_patch blank_problem empty_world).
  repeat constructor; simpl; discriminate.
Defined.
